(** * lastModifiedListener.js: the incremental change-log poller

    A shallow embedding of [src/lastModifiedListener.js] and the
    properties of its fetch / transform / publish / checkpoint loop.

    The script talks to four collaborators that live outside the file:
    the Elasticsearch client ([esClient]), the PostgreSQL driver ([pg]),
    the field content processor ([processFieldContent]) and the HTTP
    client used for the Azure Search sink ([axios]).  They are taken as
    oracles (record [Env]); every call the script makes is recorded, with
    its outcome, in a chronological list of events, and each oracle may
    look at the events that came before it, so an oracle can answer the
    same call differently at different moments of a run.

    [await] is sequencing: the script never starts two asynchronous
    operations at once, so a promise that rejects is an exception thrown
    at the [await], and a promise that resolves is a returned value. *)

From Stdlib Require Import ZArith List String Ascii Bool Lia Sorted.
From Stdlib Require Import DecimalString DecimalPos DecimalZ.
Import ListNotations.

Local Open Scope string_scope.
Local Open Scope Z_scope.

(** ** JavaScript values and dates *)

(** The values a JSON document of the metadata store, or a column of the
    change log, can carry; [JUndefined] is a field that is not there.
    Numbers are the integers (fractions play no part here). *)
Inductive jsval : Type :=
| JUndefined
| JNull
| JBool (b : bool)
| JNum (n : Z)
| JStr (s : string).

(** ToBoolean. *)
Definition truthy (v : jsval) : bool :=
  match v with
  | JUndefined | JNull => false
  | JBool b => b
  | JNum n => negb (n =? 0)
  | JStr s => negb (String.eqb s "")
  end.

(** [a || b] *)
Definition js_or (a b : jsval) : jsval := if truthy a then a else b.

(** A [Date] object: a time value in milliseconds since the epoch, or the
    Invalid Date (time value NaN). *)
Inductive JSDate : Type :=
| TimeValue (ms : Z)
| InvalidDate.

Definition epoch : JSDate := TimeValue 0.

(** TimeClip: a time value beyond 8.64e15 ms is NaN. *)
Definition TimeClip (t : Z) : JSDate :=
  if Z.abs t <=? 8640000000000000 then TimeValue t else InvalidDate.

(** [new Date(value)] for one argument.  A string goes through
    [Date.parse], which is the engine's ([parse] below: [None] is NaN);
    everything else goes through ToNumber. *)
Definition new_Date (parse : string -> option Z) (value : jsval) : JSDate :=
  match value with
  | JStr s => match parse s with Some t => TimeClip t | None => InvalidDate end
  | JNum n => TimeClip n
  | JBool b => TimeValue (if b then 1 else 0)
  | JNull => TimeValue 0
  | JUndefined => InvalidDate
  end.

(** *** Calendar arithmetic for [toISOString] *)

Definition msPerDay : Z := 86400000.

Definition digit (d : Z) : ascii := ascii_of_nat (48 + Z.to_nat d).

(** [n] in decimal on exactly [w] digits. *)
Fixpoint pad (w : nat) (n : Z) : string :=
  match w with
  | O => ""
  | S w' => pad w' (n / 10) ++ String (digit (n mod 10)) ""
  end.

(** Year, month (1..12) and day of month of a day number counted from
    1970-01-01, in the proleptic Gregorian calendar. *)
Definition civil_from_days (days : Z) : Z * Z * Z :=
  let z := days + 719468 in
  let era := z / 146097 in
  let doe := z - era * 146097 in
  let yoe := (doe - doe / 1460 + doe / 36524 - doe / 146096) / 365 in
  let doy := doe - (365 * yoe + yoe / 4 - yoe / 100) in
  let mp := (5 * doy + 2) / 153 in
  let d := doy - (153 * mp + 2) / 5 + 1 in
  let m := if mp <? 10 then mp + 3 else mp - 9 in
  let y := yoe + era * 400 + (if m <=? 2 then 1 else 0) in
  (y, m, d).

Definition days_from_civil (y m d : Z) : Z :=
  let y' := if m <=? 2 then y - 1 else y in
  let era := y' / 400 in
  let yoe := y' - era * 400 in
  let doy := (153 * (if 2 <? m then m - 3 else m + 9) + 2) / 5 + d - 1 in
  let doe := yoe * 365 + yoe / 4 - yoe / 100 + doy in
  era * 146097 + doe - 719468.

(** [Date.prototype.toISOString] of a valid time value:
    YYYY-MM-DDTHH:mm:ss.sssZ, the year on six signed digits outside
    0..9999. *)
Definition toISOString (t : Z) : string :=
  let days := t / msPerDay in
  let r := t mod msPerDay in
  let '(y, m, d) := civil_from_days days in
  let year :=
    if (0 <=? y) && (y <=? 9999) then pad 4 y
    else (if y <? 0 then "-" else "+") ++ pad 6 (Z.abs y) in
  year ++ "-" ++ pad 2 m ++ "-" ++ pad 2 d ++ "T"
       ++ pad 2 (r / 3600000) ++ ":" ++ pad 2 (r / 60000 mod 60) ++ ":"
       ++ pad 2 (r / 1000 mod 60) ++ "." ++ pad 3 (r mod 1000) ++ "Z".

(** [Number.prototype.toString] of an integer below 10^21 in magnitude,
    where it writes every digit (the row ids of an integer column). *)
Definition Number_toString (n : Z) : string :=
  NilZero.string_of_int (Z.to_int n).

(** A lower-casing of the ASCII letters, for the concrete runs: it is
    [String.prototype.toLowerCase] on ASCII strings.  The script's own
    calls go through the engine's [toLowerCase] (record [Env]). *)
Definition lower_ascii (c : ascii) : ascii :=
  let n := nat_of_ascii c in
  if (Nat.leb 65 n && Nat.leb n 90)%bool then ascii_of_nat (n + 32) else c.

Fixpoint ascii_toLowerCase (s : string) : string :=
  match s with
  | EmptyString => EmptyString
  | String c s' => String (lower_ascii c) (ascii_toLowerCase s')
  end.

(** [String.prototype.startsWith] *)
Definition startsWith (s p : string) : bool := String.prefix p s.

(** *** An engine's [Date.parse] on the full UTC date-time forms

    The two forms the metadata store carries: the one [toISOString]
    writes, and the same without milliseconds.  Used for the concrete
    runs below; the theorems hold for every [Date.parse]. *)

Definition digit_val (c : ascii) : option Z :=
  let n := nat_of_ascii c in
  if (Nat.leb 48 n && Nat.leb n 57)%bool then Some (Z.of_nat n - 48) else None.

Fixpoint number_of (cs : list ascii) (acc : Z) : option Z :=
  match cs with
  | [] => Some acc
  | c :: cs' =>
      match digit_val c with
      | Some d => number_of cs' (10 * acc + d)
      | None => None
      end
  end.

Definition is_leap (y : Z) : bool :=
  ((y mod 4 =? 0) && negb (y mod 100 =? 0)) || (y mod 400 =? 0).

Definition days_in_month (y m : Z) : Z :=
  if m =? 2 then (if is_leap y then 29 else 28)
  else if (m =? 4) || (m =? 6) || (m =? 9) || (m =? 11) then 30 else 31.

Definition make_time (y mo d h mi s ms : Z) : option Z :=
  if (1 <=? mo) && (mo <=? 12) && (1 <=? d) && (d <=? days_in_month y mo)
     && (h <=? 23) && (mi <=? 59) && (s <=? 59)
  then Some (days_from_civil y mo d * msPerDay
             + h * 3600000 + mi * 60000 + s * 1000 + ms)
  else None.

Definition iso_fields (y1 y2 y3 y4 m1 m2 d1 d2 h1 h2 i1 i2 s1 s2 : ascii)
    (millis : list ascii) : option Z :=
  match number_of [y1; y2; y3; y4] 0, number_of [m1; m2] 0,
        number_of [d1; d2] 0, number_of [h1; h2] 0,
        number_of [i1; i2] 0, number_of [s1; s2] 0, number_of millis 0 with
  | Some y, Some mo, Some d, Some h, Some mi, Some s, Some ms =>
      make_time y mo d h mi s ms
  | _, _, _, _, _, _, _ => None
  end.

Definition iso_parse (str : string) : option Z :=
  match list_ascii_of_string str with
  | [y1; y2; y3; y4; "-"; m1; m2; "-"; d1; d2; "T";
     h1; h2; ":"; i1; i2; ":"; s1; s2; "."; f1; f2; f3; "Z"]%char =>
      iso_fields y1 y2 y3 y4 m1 m2 d1 d2 h1 h2 i1 i2 s1 s2 [f1; f2; f3]
  | [y1; y2; y3; y4; "-"; m1; m2; "-"; d1; d2; "T";
     h1; h2; ":"; i1; i2; ":"; s1; s2; "Z"]%char =>
      iso_fields y1 y2 y3 y4 m1 m2 d1 d2 h1 h2 i1 i2 s1 s2 []
  | _ => None
  end.

(** ** Data of the script *)

(** An entry of [esClient.cat.indices({format: "json"})]. *)
Record CatIndex : Type := { index : string }.

(** The [_source] of a sync configuration document.  [coid] is whatever
    the document holds; the script calls [toLowerCase] on it. *)
Record Source : Type := {
  host : string;
  user : string;
  password : string;
  database : string;
  table_name : string;
  field_name : string;
  field_type : string;
  category : string;
  coid : jsval;
  updatedAt : jsval
}.

(** A hit of [esClient.search], and what [fetchIndexDetails] makes of
    it: [hit._source] is passed on as it is, [None] when the hit has
    none. *)
Record Hit : Type := { hit_id : string; hit_source : option Source }.
Record Config : Type := { config_id : string; source : option Source }.

(** The options [fetchUpdatedRows] builds its [Pool] from. *)
Record PoolOptions : Type := {
  pool_host : string;
  pool_user : string;
  pool_password : string;
  pool_database : string
}.

(** A row of the change-log query: [row_id], [change_time] (a valid
    [Date], as its time value), the column the query aliases to the
    configured field name (read by the script as [row[fieldName]]) and
    [action_type]. *)
Record Row : Type := {
  row_id : Z;
  change_time : Z;
  new_value : jsval;
  action_type : string
}.

(** A document of the Azure Search batch. *)
Record Doc : Type := {
  doc_search_action : string;
  doc_id : string;
  doc_title : string;
  doc_content : jsval;
  doc_description : string;
  doc_image : jsval;
  doc_category : string
}.

(** ** Exceptions and events *)

Local Open Scope list_scope.

Record Error : Type := { message : string }.

Inductive Result (A : Type) : Type :=
| Ok (a : A)
| Throw (e : Error).
Arguments Ok {A} a.
Arguments Throw {A} e.

Definition is_ok {A} (r : Result A) : bool :=
  match r with Ok _ => true | Throw _ => false end.

(** A client of the change-log source: the pool it belongs to and the
    number the pool gives it. *)
Definition Client : Type := (nat * nat)%type.

(** What a log line prints after its text. *)
Inductive Logged : Type :=
| LogValue (v : jsval)
| LogRows (rows : list Row).

(** Every call that leaves the script, with its outcome.  [EvNewPool] is
    [new Pool(...)], which opens no connection; [EvRelease] is
    [client.release()], which hands the client back to its pool;
    [EvPoolEnd] is [pool.end()]. *)
Inductive event : Type :=
| EvCatIndices (r : Result (list CatIndex))
| EvSearch (indexName : string) (r : Result (list Hit))
| EvUpdate (indexName docId updatedAt : string) (r : Result unit)
| EvNewPool (pool : nat) (opts : PoolOptions)
| EvConnect (pool : nat) (r : Result Client)
| EvQuery (client : Client) (text : string) (cursor : JSDate) (r : Result (list Row))
| EvRelease (client : Client)
| EvPoolEnd (pool : nat)
| EvProcessField (raw : jsval) (fieldType : string) (r : Result jsval)
| EvPost (indexName : string) (documents : list Doc) (r : Result unit)
| EvLog (text : string)
| EvLogValue (text : string) (value : Logged)
| EvError (text : string).

Definition History : Type := list event.

(** The collaborators.  Each one sees the events so far. *)
Record Env : Type := {
  Date_parse : string -> option Z;
  toLowerCase : string -> string;
  esClient_cat_indices : History -> Result (list CatIndex);
  esClient_search : History -> string -> Result (list Hit);
  esClient_update : History -> string -> string -> string -> Result unit;
  pg_pool_connect : History -> nat -> PoolOptions -> Result nat;
  pg_client_query : History -> Client -> string -> JSDate -> Result (list Row);
  processFieldContent : History -> jsval -> string -> Result jsval;
  axios_post : History -> string -> list Doc -> Result unit
}.

(** ** The monad of the script: exceptions over an event log

    A computation reads the events so far and gives its result with the
    events it adds. *)
Definition M (A : Type) : Type := History -> Result A * list event.

Definition ret {A} (a : A) : M A := fun _ => (Ok a, []).

Definition throw {A} (e : Error) : M A := fun _ => (Throw e, []).

Definition bind {A B} (m : M A) (f : A -> M B) : M B :=
  fun h =>
    match m h with
    | (Ok a, ev) => let (r, ev') := f a (h ++ ev) in (r, ev ++ ev')
    | (Throw e, ev) => (Throw e, ev)
    end.

(** [try { m } catch (error) { handler error }] *)
Definition try_catch {A} (m : M A) (handler : Error -> M A) : M A :=
  fun h =>
    match m h with
    | (Ok a, ev) => (Ok a, ev)
    | (Throw e, ev) => let (r, ev') := handler e (h ++ ev) in (r, ev ++ ev')
    end.

(** [try { m } finally { fin }] *)
Definition try_finally {A} (m : M A) (fin : M unit) : M A :=
  fun h =>
    let (r, ev) := m h in
    match fin (h ++ ev) with
    | (Ok _, ev') => (r, ev ++ ev')
    | (Throw e, ev') => (Throw e, ev ++ ev')
    end.

Definition emit (e : event) : M unit := fun _ => (Ok tt, [e]).

Definition console_log (text : string) : M unit := emit (EvLog text).
Definition console_error (text : string) : M unit := emit (EvError text).

Declare Scope js_scope.
Delimit Scope js_scope with js.
Notation "x <- m ;; k" := (bind m (fun x => k))
  (at level 61, m at next level, right associativity) : js_scope.
Notation "m ;; k" := (bind m (fun _ => k))
  (at level 61, right associativity) : js_scope.
Local Open Scope js_scope.

Definition events {A} (m : M A) (h : History) : list event := snd (m h).
Definition result {A} (m : M A) (h : History) : Result A := fst (m h).

(** ** The script *)

Local Open Scope string_scope.

Definition connections_prefix : string := "datasource_postgresql_connection_".

(** The text of the change-log query of [fetchUpdatedRows]: the template
    literal with its line breaks and its indentation. *)
Definition newline : string := String (ascii_of_nat 10) "".

Definition changelog_query (fieldName tableName : string) : string :=
  newline
  ++ "            SELECT row_id, change_time, new_value AS " ++ fieldName
  ++ ", action_type" ++ newline
  ++ "            FROM " ++ tableName ++ "_changelog" ++ newline
  ++ "            WHERE change_time > $1" ++ newline
  ++ "            ORDER BY change_time ASC" ++ newline
  ++ "        ".

(** The TypeErrors of a member access on a value that has no members. *)
Definition reading_undefined (member : string) : Error :=
  {| message := "Cannot read properties of undefined (reading '" ++ member ++ "')" |}.

Definition reading_null (member : string) : Error :=
  {| message := "Cannot read properties of null (reading '" ++ member ++ "')" |}.

Definition not_a_function (what : string) : Error :=
  {| message := what ++ " is not a function" |}.

Definition pool_options (s : Source) : PoolOptions :=
  {| pool_host := host s; pool_user := user s;
     pool_password := password s; pool_database := database s |}.

(** The document pushed for a row with processed [content]. *)
Definition document_of (row : Row) (content : jsval) (category : string) : Doc :=
  {| doc_search_action :=
       if String.eqb (action_type row) "INSERT" then "upload" else "mergeOrUpload";
     doc_id := Number_toString (row_id row);
     doc_title := "Default Title for Row " ++ Number_toString (row_id row);
     doc_content := content;
     doc_description := "Default Description for Row " ++ Number_toString (row_id row);
     doc_image := JNull;
     doc_category := category |}.

(** [coid.toLowerCase()], with the engine's lower-casing [lower]. *)
Definition lowered_coid (lower : string -> string) (s : Source) : Result string :=
  match coid s with
  | JStr c => Ok (lower c)
  | JUndefined => Throw (reading_undefined "toLowerCase")
  | JNull => Throw (reading_null "toLowerCase")
  | JBool _ | JNum _ => Throw (not_a_function "config.source.coid.toLowerCase")
  end.

(** A value or an exception that needs no call. *)
Definition lift {A} (r : Result A) : M A := fun _ => (r, []).

Section Listener.

Variable E : Env.

(** *** Calls to the collaborators *)

Definition cat_indices : M (list CatIndex) :=
  fun h => let r := esClient_cat_indices E h in (r, [EvCatIndices r]).

Definition search (indexName : string) : M (list Hit) :=
  fun h => let r := esClient_search E h indexName in (r, [EvSearch indexName r]).

Definition update (indexName docId updatedAt : string) : M unit :=
  fun h =>
    let r := esClient_update E h indexName docId updatedAt in
    (r, [EvUpdate indexName docId updatedAt r]).

(** [new Pool({...})]: a new object, named by its place in the run. *)
Definition new_pool (opts : PoolOptions) : M nat :=
  fun h => (Ok (List.length h), [EvNewPool (List.length h) opts]).

(** [await pool.connect()]: the pool hands out one of its clients, under
    the number the driver chooses. *)
Definition connect (pool : nat) (opts : PoolOptions) : M Client :=
  fun h =>
    let r := match pg_pool_connect E h pool opts with
             | Ok n => Ok (pool, n)
             | Throw e => Throw e
             end in
    (r, [EvConnect pool r]).

Definition query (client : Client) (text : string) (cursor : JSDate) : M (list Row) :=
  fun h =>
    let r := pg_client_query E h client text cursor in
    (r, [EvQuery client text cursor r]).

Definition release (client : Client) : M unit := emit (EvRelease client).

(** [config.source.coid.toLowerCase()] *)
Definition lower_coid (s : Source) : M string := lift (lowered_coid (toLowerCase E) s).

Definition process_field (raw : jsval) (fieldType : string) : M jsval :=
  fun h =>
    let r := processFieldContent E h raw fieldType in
    (r, [EvProcessField raw fieldType r]).

Definition post (indexName : string) (documents : list Doc) : M unit :=
  fun h =>
    let r := axios_post E h indexName documents in
    (r, [EvPost indexName documents r]).

(** *** The functions of lastModifiedListener.js *)

Definition fetchIndicesWithPrefix (prefix : string) : M (list string) :=
  try_catch
    (result <- cat_indices ;;
     let indices := filter (fun i => startsWith (index i) prefix) result in
     ret (map index indices))
    (fun error =>
       console_error ("Error fetching indices from Elasticsearch: " ++ message error) ;;
       throw {| message := "Failed to fetch indices from Elasticsearch" |}).

Definition fetchIndexDetails (indexName : string) : M (list Config) :=
  try_catch
    (hits <- search indexName ;;
     ret (map (fun hit => {| source := hit_source hit; config_id := hit_id hit |}) hits))
    (fun error =>
       console_error ("Error fetching details from index " ++ indexName ++ ": "
                      ++ message error) ;;
       throw {| message := "Failed to fetch index details from Elasticsearch" |}).

Definition updateTimeInElasticsearch (indexName docId updatedAt : string) : M unit :=
  try_catch
    (update indexName docId updatedAt ;;
     console_log ("Updated updatedAt for docId " ++ docId ++ " in index " ++ indexName))
    (fun error =>
       console_error ("Error updating updatedAt in Elasticsearch for docId " ++ docId
                      ++ ": " ++ message error) ;;
       throw {| message := "Failed to update updatedAt in Elasticsearch" |}).

(** [new Date(config.source.updatedAt || 0)] *)
Definition lastIndexedTime (s : Source) : JSDate :=
  new_Date (Date_parse E) (js_or (updatedAt s) (JNum 0)).

(** The body of [fetchUpdatedRows] for a config that has a [source]. *)
Definition fetch_from (config : Config) (s : Source) : M (list Row) :=
  pool <- new_pool (pool_options s) ;;
  client <- connect pool (pool_options s) ;;
  try_finally
    (try_catch
       (emit (EvLogValue "Current updatedAt in Elasticsearch:" (LogValue (updatedAt s))) ;;
        rows <- query client (changelog_query (field_name s) (table_name s))
                  (lastIndexedTime s) ;;
        (if (0 <? List.length rows)%nat then
           match nth_error rows (List.length rows - 1) with
           | Some lastRow =>
               let latestChangeTime := change_time lastRow in
               console_log ("Updating Elasticsearch with: "
                            ++ toISOString latestChangeTime) ;;
               lowered <- lower_coid s ;;
               updateTimeInElasticsearch
                 (connections_prefix ++ lowered)
                 (config_id config)
                 (toISOString latestChangeTime)
           | None => throw (reading_undefined "change_time")
           end
         else ret tt) ;;
        ret rows)
       (fun error =>
          console_error ("Error fetching updated rows from PostgreSQL: "
                         ++ message error) ;;
          throw error))
    (release client).

(** [config.source.host] is read first, to build the pool: on a config
    without [source] it throws before anything else happens. *)
Definition fetchUpdatedRows (config : Config) : M (list Row) :=
  match source config with
  | Some s => fetch_from config s
  | None => throw (reading_undefined "host")
  end.

(** The body of the [for (const row of rows)] loop of
    [processAndIndexData]: the documents so far go in and come out.
    [row[fieldName]] is the column the query aliased to the field name,
    [new_value row]. *)
Definition process_row (fieldType category : string) (row : Row)
    (documents : list Doc) : M (list Doc) :=
  try_catch
    (content <- process_field (new_value row) fieldType ;;
     if truthy content then
       console_log ("Row Action Type =>  " ++ action_type row) ;;
       console_log ("Row's RowID =>  " ++ Number_toString (row_id row)) ;;
       ret (documents ++ [document_of row content category])%list
     else ret documents)
    (fun error =>
       console_error ("Error processing content for row ID undefined: "
                      ++ message error) ;;
       ret documents).

Fixpoint process_rows (fieldType category : string) (rows : list Row)
    (documents : list Doc) : M (list Doc) :=
  match rows with
  | [] => ret documents
  | row :: rest =>
      documents' <- process_row fieldType category row documents ;;
      process_rows fieldType category rest documents'
  end.

Definition pushToAzureSearch (documents : list Doc) (indexName : string) : M unit :=
  try_catch
    (post indexName documents ;;
     console_log "Data pushed to Azure Search successfully.")
    (fun error =>
       console_error ("Failed to push data to Azure Search: " ++ message error) ;;
       throw {| message := "Azure Search push failed." |}).

Definition processAndIndexData (rows : list Row)
    (fieldName fieldType category indexName : string) : M unit :=
  documents <- process_rows fieldType category rows [] ;;
  if (0 <? List.length documents)%nat then
    pushToAzureSearch documents indexName ;;
    console_log ("Indexed " ++ Number_toString (Z.of_nat (List.length documents))
                 ++ " documents.")
  else console_log "No documents to index.".

(** The body of the [for (const config of indexDetails)] loop of
    [processIndices].  The handler reads [config.source.table_name]: on
    a config without [source] it throws in its turn. *)
Definition process_config (config : Config) : M unit :=
  try_catch
    (updatedRows <- fetchUpdatedRows config ;;
     if (0 <? List.length updatedRows)%nat then
       match source config with
       | Some s =>
           lowered <- lower_coid s ;;
           processAndIndexData updatedRows
             (field_name s) (field_type s) (category s) ("tenant_" ++ lowered) ;;
           emit (EvLogValue "Fetched Updated Rows => " (LogRows updatedRows))
       | None => throw (reading_undefined "field_name")
       end
     else ret tt)
    (fun error =>
       match source config with
       | Some s =>
           console_error ("Error processing table: " ++ table_name s
                          ++ ", field: " ++ field_name s ++ " "
                          ++ message error)
       | None => throw (reading_undefined "table_name")
       end).

Fixpoint process_configs (indexDetails : list Config) : M unit :=
  match indexDetails with
  | [] => ret tt
  | config :: rest => process_config config ;; process_configs rest
  end.

(** The body of the [for (const indexName of indices)] loop. *)
Definition process_index (indexName : string) : M unit :=
  try_catch
    (indexDetails <- fetchIndexDetails indexName ;;
     process_configs indexDetails)
    (fun error =>
       console_error ("Error processing index: " ++ indexName ++ " " ++ message error)).

Fixpoint processIndices (indices : list string) : M unit :=
  match indices with
  | [] => ret tt
  | indexName :: rest => process_index indexName ;; processIndices rest
  end.

Definition lastModifiedListener : M unit :=
  try_catch
    (console_log "Fetching indices with prefix..." ;;
     indices <- fetchIndicesWithPrefix connections_prefix ;;
     if (0 <? List.length indices)%nat then processIndices indices
     else console_log "No indices found with the specified prefix.")
    (fun error =>
       console_error ("Error during periodic indexing: " ++ message error)).

End Listener.

Local Open Scope Z_scope.
Local Open Scope list_scope.

(** ** What a run shows: the calls in a list of events *)

Definition update_calls (ev : list event)
    : list (string * string * string * Result unit) :=
  flat_map (fun e => match e with
                     | EvUpdate i d u r => [(i, d, u, r)]
                     | _ => []
                     end) ev.

Definition post_calls (ev : list event) : list (string * list Doc * Result unit) :=
  flat_map (fun e => match e with
                     | EvPost i docs r => [(i, docs, r)]
                     | _ => []
                     end) ev.

Definition process_calls (ev : list event) : list (jsval * string * Result jsval) :=
  flat_map (fun e => match e with
                     | EvProcessField raw ft r => [(raw, ft, r)]
                     | _ => []
                     end) ev.

Definition search_calls (ev : list event) : list (string * Result (list Hit)) :=
  flat_map (fun e => match e with
                     | EvSearch i r => [(i, r)]
                     | _ => []
                     end) ev.

Definition pool_calls (ev : list event) : list (nat * PoolOptions) :=
  flat_map (fun e => match e with
                     | EvNewPool pool opts => [(pool, opts)]
                     | _ => []
                     end) ev.

Definition connect_calls (ev : list event) : list (nat * Result Client) :=
  flat_map (fun e => match e with
                     | EvConnect pool r => [(pool, r)]
                     | _ => []
                     end) ev.

Definition query_calls (ev : list event)
    : list (Client * string * JSDate * Result (list Row)) :=
  flat_map (fun e => match e with
                     | EvQuery c t cur r => [(c, t, cur, r)]
                     | _ => []
                     end) ev.

(** The events [fetchUpdatedRows] can add, and those [processAndIndexData]
    can add. *)
Definition fetch_event (e : event) : bool :=
  match e with
  | EvNewPool _ _ | EvConnect _ _ | EvQuery _ _ _ _ | EvUpdate _ _ _ _
  | EvRelease _ | EvLog _ | EvLogValue _ _ | EvError _ => true
  | _ => false
  end.

Definition sink_event (e : event) : bool :=
  match e with
  | EvProcessField _ _ _ | EvPost _ _ _ | EvLog _ | EvLogValue _ _
  | EvError _ => true
  | _ => false
  end.

Definition log_event (e : event) : bool :=
  match e with
  | EvLog _ | EvLogValue _ _ | EvError _ => true
  | _ => false
  end.

Definition transform_event (e : event) : bool :=
  match e with
  | EvProcessField _ _ _ | EvLog _ | EvLogValue _ _ | EvError _ => true
  | _ => false
  end.

(** The documents of the rows whose content processing gave a truthy
    content, from the rows and the outcomes of their processing. *)
Definition kept_document (category : string) (row : Row) (outcome : Result jsval)
    : list Doc :=
  match outcome with
  | Ok content => if truthy content then [document_of row content category] else []
  | Throw _ => []
  end.

Fixpoint documents_for (category : string) (rows : list Row)
    (outcomes : list (Result jsval)) : list Doc :=
  match rows, outcomes with
  | row :: rows', outcome :: outcomes' =>
      kept_document category row outcome ++ documents_for category rows' outcomes'
  | _, _ => []
  end.

(** ** The paths of [fetchUpdatedRows] *)

Section FetchPaths.

Variable E : Env.
Variable config : Config.
Variable s : Source.
Variable h : History.

Let pool := List.length h.
Let opts := pool_options s.
Let text := changelog_query (field_name s) (table_name s).
Let cursor := lastIndexedTime E s.
Let built := EvNewPool pool opts.

(** What the pool answers when this fetch asks it for a client. *)
Definition handed_out : Result nat := pg_pool_connect E (h ++ [built]) pool opts.

(** The events up to the query, with the client [(pool, n)]. *)
Definition opened (n : nat) : list event :=
  [built; EvConnect pool (Ok (pool, n));
   EvLogValue "Current updatedAt in Elasticsearch:" (LogValue (updatedAt s))].

(** What the change-log source answers to the query of this fetch. *)
Definition delivered (n : nat) : Result (list Row) :=
  pg_client_query E (h ++ opened n) (pool, n) text cursor.

Definition announce (t : Z) : event :=
  EvLog ("Updating Elasticsearch with: " ++ toISOString t).

(** What the metadata store answers to the checkpoint write of this
    fetch, into the index [indexName], for the rows [rows] and the new
    watermark [t]. *)
Definition written (n : nat) (rows : list Row) (t : Z) (indexName : string)
    : Result unit :=
  esClient_update E
    (h ++ opened n ++ [EvQuery (pool, n) text cursor (Ok rows); announce t])
    indexName (config_id config) (toISOString t).

Inductive fetch_path : Result (list Row) -> list event -> Prop :=
| connect_failed e :
    handed_out = Throw e ->
    fetch_path (Throw e) [built; EvConnect pool (Throw e)]
| query_failed n e :
    handed_out = Ok n ->
    delivered n = Throw e ->
    fetch_path (Throw e)
      (opened n ++ [EvQuery (pool, n) text cursor (Throw e);
                    EvError ("Error fetching updated rows from PostgreSQL: " ++ message e);
                    EvRelease (pool, n)])
| no_rows n :
    handed_out = Ok n ->
    delivered n = Ok [] ->
    fetch_path (Ok [])
      (opened n ++ [EvQuery (pool, n) text cursor (Ok []); EvRelease (pool, n)])
| coid_failed n rows lastRow e :
    handed_out = Ok n ->
    delivered n = Ok (rows ++ [lastRow]) ->
    lowered_coid (toLowerCase E) s = Throw e ->
    fetch_path (Throw e)
      (opened n ++ [EvQuery (pool, n) text cursor (Ok (rows ++ [lastRow]));
                    announce (change_time lastRow);
                    EvError ("Error fetching updated rows from PostgreSQL: " ++ message e);
                    EvRelease (pool, n)])
| checkpoint_written n rows lastRow lowered w :
    handed_out = Ok n ->
    delivered n = Ok (rows ++ [lastRow]) ->
    lowered_coid (toLowerCase E) s = Ok lowered ->
    written n (rows ++ [lastRow]) (change_time lastRow) (connections_prefix ++ lowered)
    = Ok w ->
    fetch_path (Ok (rows ++ [lastRow]))
      (opened n ++ [EvQuery (pool, n) text cursor (Ok (rows ++ [lastRow]));
                    announce (change_time lastRow);
                    EvUpdate (connections_prefix ++ lowered) (config_id config)
                      (toISOString (change_time lastRow)) (Ok w);
                    EvLog ("Updated updatedAt for docId " ++ config_id config
                           ++ " in index " ++ connections_prefix ++ lowered);
                    EvRelease (pool, n)])
| checkpoint_failed n rows lastRow lowered e :
    handed_out = Ok n ->
    delivered n = Ok (rows ++ [lastRow]) ->
    lowered_coid (toLowerCase E) s = Ok lowered ->
    written n (rows ++ [lastRow]) (change_time lastRow) (connections_prefix ++ lowered)
    = Throw e ->
    fetch_path (Throw {| message := "Failed to update updatedAt in Elasticsearch" |})
      (opened n ++ [EvQuery (pool, n) text cursor (Ok (rows ++ [lastRow]));
                    announce (change_time lastRow);
                    EvUpdate (connections_prefix ++ lowered) (config_id config)
                      (toISOString (change_time lastRow)) (Throw e);
                    EvError ("Error updating updatedAt in Elasticsearch for docId "
                             ++ config_id config ++ ": " ++ message e);
                    EvError ("Error fetching updated rows from PostgreSQL: "
                             ++ "Failed to update updatedAt in Elasticsearch");
                    EvRelease (pool, n)]).

End FetchPaths.

(** ** The change-log query, as the database answers it

    The table holds its rows in whatever order they were written, with
    change times in microseconds.  The cursor, a [Date], reaches the
    database with its milliseconds; [WHERE change_time > $1] and
    [ORDER BY change_time ASC] work on the microseconds; the driver hands
    every change time back as a [Date], its microseconds cut off. *)
Record StoredRow : Type := {
  stored_row_id : Z;
  stored_change_time : Z;
  stored_new_value : jsval;
  stored_action_type : string
}.

Definition deliver (r : StoredRow) : Row :=
  {| row_id := stored_row_id r;
     change_time := stored_change_time r / 1000;
     new_value := stored_new_value r;
     action_type := stored_action_type r |}.

Fixpoint insert_row (r : StoredRow) (l : list StoredRow) : list StoredRow :=
  match l with
  | [] => [r]
  | x :: l' =>
      if stored_change_time r <=? stored_change_time x then r :: l
      else x :: insert_row r l'
  end.

Definition order_by_change_time (l : list StoredRow) : list StoredRow :=
  fold_right insert_row [] l.

Definition changelog_select (table : list StoredRow) (cursor : Z) : list StoredRow :=
  order_by_change_time (filter (fun r => cursor * 1000 <? stored_change_time r) table).

Definition changelog_answer (table : list StoredRow) (cursor : Z) : list Row :=
  map deliver (changelog_select table cursor).





(** ** Sessions of the change-log source

    [track] follows the clients through a list of events: which one is
    checked out, and which ones ever were.  It gives [None] when a client
    is handed out while another is checked out or was handed out before,
    when a query runs on a client that is not the one checked out, or
    when a client that is not the one checked out is released. *)
Definition client_eqb (a b : Client) : bool :=
  Nat.eqb (fst a) (fst b) && Nat.eqb (snd a) (snd b).

Definition sessions : Type := (option Client * list Client)%type.

Definition track_event (st : sessions) (e : event) : option sessions :=
  let (open, used) := st in
  match e with
  | EvConnect _ (Ok c) =>
      match open with
      | None => if existsb (client_eqb c) used then None else Some (Some c, c :: used)
      | Some _ => None
      end
  | EvQuery c _ _ _ =>
      match open with
      | Some c' => if client_eqb c c' then Some st else None
      | None => None
      end
  | EvRelease c =>
      match open with
      | Some c' => if client_eqb c c' then Some (None, used) else None
      | None => None
      end
  | _ => Some st
  end.

Fixpoint track (st : sessions) (ev : list event) : option sessions :=
  match ev with
  | [] => Some st
  | e :: ev' =>
      match track_event st e with
      | Some st' => track st' ev'
      | None => None
      end
  end.

(** Every client handed out in [ev] is released in [ev], none is checked
    out at its end, and none is used outside its checkout. *)
Definition scoped (ev : list event) : bool :=
  match track (None, []) ev with
  | Some (None, _) => true
  | _ => false
  end.

(** The events [ev], added to the history [h], keep the clients scoped:
    started with none checked out and the clients so far all of pools
    built before the end of the history, they end the same way. *)
Definition scoped_from (h : History) (ev : list event) : Prop :=
  forall used,
    Forall (fun c => (fst c < List.length h)%nat) used ->
    exists used',
      track (None, used) ev = Some (None, used')
      /\ Forall (fun c => (fst c < List.length (h ++ ev))%nat) used'.

(** The events that neither hand out, use nor release a client. *)
Definition session_neutral (e : event) : bool :=
  match e with
  | EvConnect _ (Ok _) | EvQuery _ _ _ _ | EvRelease _ => false
  | _ => true
  end.

Definition release_calls (ev : list event) : list Client :=
  flat_map (fun e => match e with EvRelease c => [c] | _ => [] end) ev.

Definition opened_sessions (ev : list event) : list Client :=
  flat_map (fun e => match e with EvConnect _ (Ok c) => [c] | _ => [] end) ev.

Definition pools_ended (ev : list event) : list nat :=
  flat_map (fun e => match e with EvPoolEnd p => [p] | _ => [] end) ev.

(** ** Connections and configurations of a run *)

(** The hits the searches of a run returned, in order, and the sources
    of those that have one. *)
Definition hits_read (ev : list event) : list Hit :=
  flat_map (fun call => match snd call with
                        | Ok hits => hits
                        | Throw _ => []
                        end) (search_calls ev).

Definition sources_of (hits : list Hit) : list Source :=
  flat_map (fun hit => match hit_source hit with
                       | Some s => [s]
                       | None => []
                       end) hits.

Definition has_source (hit : Hit) : bool :=
  match hit_source hit with Some _ => true | None => false end.

(** ** The claims of the specification that the script does not meet,
    as the specification words them *)

(** Every checkpoint write of [ev] comes after a publish that
    succeeded. *)
Fixpoint checkpoint_after_publish (published : bool) (ev : list event) : bool :=
  match ev with
  | [] => true
  | EvPost _ _ (Ok _) :: ev' => checkpoint_after_publish true ev'
  | EvUpdate _ _ _ _ :: ev' => published && checkpoint_after_publish published ev'
  | _ :: ev' => checkpoint_after_publish published ev'
  end.

Definition publish_failed (ev : list event) : bool :=
  existsb (fun call => negb (is_ok (snd call))) (post_calls ev).

(** "The checkpoint is written only after the publish has fully
    succeeded; if publish fails, no checkpoint write occurs for that
    config in that cycle; the fetch itself performs no write to the
    metadata store." *)
Definition checkpoint_follows_publish (E : Env) (config : Config) (h : History) : Prop :=
  forall rows,
    result (fetchUpdatedRows E config) h = Ok rows -> rows <> [] ->
    checkpoint_after_publish false (events (process_config E config) h) = true
    /\ (publish_failed (events (process_config E config) h) = true ->
        update_calls (events (process_config E config) h) = [])
    /\ update_calls (events (fetchUpdatedRows E config) h) = [].

(** "Throws if and only if connection discovery fails." *)
Definition discovery_failed (ev : list event) : Prop :=
  exists e, In (EvCatIndices (Throw e)) ev.

Definition throws_iff_discovery_fails (E : Env) (h : History) : Prop :=
  (exists e, result (lastModifiedListener E) h = Throw e)
  <-> discovery_failed (events (lastModifiedListener E) h).

(** "cursor = config.updatedAt if present and parseable, else the epoch." *)
Definition cursor_of_spec (parse : string -> option Z) (updatedAt : jsval) : JSDate :=
  match new_Date parse updatedAt with
  | TimeValue t => TimeValue t
  | InvalidDate => epoch
  end.

(** The cursor the script computes, by cases on the stored value: the
    epoch for a value that is falsy, the value as a date otherwise. *)
Definition cursor_of_code (parse : string -> option Z) (updatedAt : jsval) : JSDate :=
  match updatedAt with
  | JUndefined | JNull | JBool false => epoch
  | JBool true => TimeValue 1
  | JNum n => if n =? 0 then epoch else TimeClip n
  | JStr s =>
      if String.eqb s "" then epoch
      else match parse s with
           | Some t => TimeClip t
           | None => InvalidDate
           end
  end.

(** ** Concrete collaborators for the runs below *)

Definition acme : Source :=
  {| host := "db.internal"; user := "sync"; password := "secret";
     database := "crm"; table_name := "articles"; field_name := "body";
     field_type := "text"; category := "news"; coid := JStr "ACME";
     updatedAt := JStr "2024-01-01T00:00:00Z" |}.

Definition acme_config : Config := {| config_id := "cfg-1"; source := Some acme |}.

Definition with_updatedAt (s : Source) (v : jsval) : Source :=
  {| host := host s; user := user s; password := password s;
     database := database s; table_name := table_name s;
     field_name := field_name s; field_type := field_type s;
     category := category s; coid := coid s; updatedAt := v |}.



(** Rows of a change-log table, with their microseconds, and the rows
    the driver makes of them. *)
Definition stored_insert : StoredRow :=
  {| stored_row_id := 7; stored_change_time := 1704153600000000;
     stored_new_value := JStr "first"; stored_action_type := "INSERT" |}.

Definition stored_update : StoredRow :=
  {| stored_row_id := 8; stored_change_time := 1704240000000250;
     stored_new_value := JStr "second"; stored_action_type := "UPDATE" |}.

Definition stored_delete : StoredRow :=
  {| stored_row_id := 9; stored_change_time := 1704326400000999;
     stored_new_value := JStr ""; stored_action_type := "DELETE" |}.

Definition row_insert : Row := Eval cbv in deliver stored_insert.
Definition row_update : Row := Eval cbv in deliver stored_update.
Definition row_delete : Row := Eval cbv in deliver stored_delete.

(** A row whose value the content processor refuses. *)
Definition row_binary : Row :=
  {| row_id := 6; change_time := 1704110400000;
     new_value := JNum 255; action_type := "UPDATE" |}.

(** A content processor that returns a string as it is and throws on
    anything else. *)
Definition plain_text (v : jsval) : Result jsval :=
  match v with
  | JStr s => Ok (JStr s)
  | _ => Throw {| message := "unsupported field value" |}
  end.

(** Collaborators that answer every call the same way. *)
Definition fixed_env (indices : Result (list CatIndex))
    (hits : Result (list Hit)) (rows : Result (list Row))
    (written posted : Result unit) : Env :=
  {| Date_parse := iso_parse;
     toLowerCase := ascii_toLowerCase;
     esClient_cat_indices := fun _ => indices;
     esClient_search := fun _ _ => hits;
     esClient_update := fun _ _ _ _ => written;
     pg_pool_connect := fun _ _ _ => Ok 0%nat;
     pg_client_query := fun _ _ _ _ => rows;
     processFieldContent := fun _ v _ => plain_text v;
     axios_post := fun _ _ _ => posted |}.

Definition one_connection : Result (list CatIndex) :=
  Ok [ {| index := "datasource_postgresql_connection_acme" |};
       {| index := "tenant_acme" |} ].

Definition one_config : Result (list Hit) :=
  Ok [ {| hit_id := "cfg-1"; hit_source := Some acme |} ].

Definition unreachable {A} : Result A := Throw {| message := "ECONNREFUSED" |}.

(** Two new rows, everything succeeds. *)
Definition env_two_rows : Env :=
  fixed_env one_connection one_config (Ok [row_insert; row_update]) (Ok tt) (Ok tt).

(** Two new rows, the sink refuses the batch. *)
Definition env_publish_fails : Env :=
  fixed_env one_connection one_config (Ok [row_insert; row_update]) (Ok tt) unreachable.

(** No new rows. *)
Definition env_no_rows : Env :=
  fixed_env one_connection one_config (Ok []) (Ok tt) (Ok tt).

(** The catalog of the metadata store is unreachable. *)
Definition env_discovery_fails : Env :=
  fixed_env unreachable one_config (Ok [row_insert]) (Ok tt) (Ok tt).

(** A batch whose last row has an empty content. *)
Definition env_dropped_row : Env :=
  fixed_env one_connection one_config (Ok [row_insert; row_delete]) (Ok tt) (Ok tt).


(** Two configs of one connection; the source of the first is down. *)
Definition acme_down : Source :=
  {| host := "down.internal"; user := "sync"; password := "secret";
     database := "crm"; table_name := "tickets"; field_name := "summary";
     field_type := "text"; category := "support"; coid := JStr "ACME";
     updatedAt := JUndefined |}.

Definition env_first_source_down : Env :=
  {| Date_parse := iso_parse;
     toLowerCase := ascii_toLowerCase;
     esClient_cat_indices := fun _ => one_connection;
     esClient_search := fun _ _ =>
       Ok [ {| hit_id := "cfg-0"; hit_source := Some acme_down |};
            {| hit_id := "cfg-1"; hit_source := Some acme |} ];
     esClient_update := fun _ _ _ _ => Ok tt;
     pg_pool_connect := fun _ _ opts =>
       if String.eqb (pool_host opts) "down.internal" then unreachable else Ok 0%nat;
     pg_client_query := fun _ _ _ _ => Ok [row_binary; row_insert; row_delete];
     processFieldContent := fun _ v _ => plain_text v;
     axios_post := fun _ _ _ => Ok tt |}.

(** Two hits of one connection; the first has no [_source]. *)
Definition env_hit_without_source : Env :=
  fixed_env one_connection
    (Ok [ {| hit_id := "cfg-0"; hit_source := None |};
          {| hit_id := "cfg-1"; hit_source := Some acme |} ])
    (Ok [row_insert]) (Ok tt) (Ok tt).

(** ** Counting the calls of a run *)

(** The queries of [ev] that delivered at least one row. *)
Definition delivered_rows (call : Client * string * JSDate * Result (list Row)) : bool :=
  match snd call with
  | Ok (_ :: _) => true
  | _ => false
  end.

(** A query that delivered no row, or failed. *)
Definition quiet (call : Client * string * JSDate * Result (list Row)) : bool :=
  negb (delivered_rows call).

Definition nonempty_deliveries (ev : list event)
    : list (Client * string * JSDate * Result (list Row)) :=
  filter delivered_rows (query_calls ev).

(** The checkpoint writes of [ev] that the metadata store accepted. *)
Definition successful_writes (ev : list event)
    : list (string * string * string * Result unit) :=
  filter (fun call => is_ok (snd call)) (update_calls ev).

(** The events the loops add between the configs: the discovery, the
    searches and the log lines. *)
Definition glue_event (e : event) : bool :=
  match e with
  | EvCatIndices _ | EvSearch _ _ | EvLog _ | EvLogValue _ _ | EvError _ => true
  | _ => false
  end.

(** Every checkpoint write of [ev] goes to the document of one of
    [hits], in the index named after its coid in lower case, and every
    publish request to the tenant index named after the coid, in lower
    case, of one of [hits]. *)
Definition targets_among (E : Env) (hits : list Hit) (ev : list event) : Prop :=
  (forall call, In call (update_calls ev) ->
     exists hit s c, In hit hits /\ hit_source hit = Some s /\ coid s = JStr c
       /\ fst (fst (fst call)) = (connections_prefix ++ toLowerCase E c)%string
       /\ snd (fst (fst call)) = hit_id hit)
  /\ (forall call, In call (post_calls ev) ->
        exists hit s c, In hit hits /\ hit_source hit = Some s /\ coid s = JStr c
          /\ fst (fst call) = ("tenant_" ++ toLowerCase E c)%string).

(** The content processor gave a truthy content. *)
Definition kept (outcome : Result jsval) : bool :=
  match outcome with
  | Ok content => truthy content
  | Throw _ => false
  end.

(** ** More concrete collaborators *)

(** The metadata store refuses the checkpoint write. *)
Definition env_write_fails : Env :=
  fixed_env one_connection one_config (Ok [row_insert; row_update]) unreachable (Ok tt).

(** The change-log query fails. *)
Definition env_query_fails : Env :=
  fixed_env one_connection one_config unreachable (Ok tt) (Ok tt).

(** The configs of the connection cannot be read. *)
Definition env_search_fails : Env :=
  fixed_env one_connection unreachable (Ok [row_insert]) (Ok tt) (Ok tt).

(** A catalog without any connection index. *)
Definition env_no_connection : Env :=
  fixed_env (Ok [ {| index := "tenant_acme" |}; {| index := "logs-2024" |} ])
    one_config (Ok [row_insert]) (Ok tt) (Ok tt).

(** A batch in which every row is dropped: an empty content, and a value
    the content processor refuses. *)
Definition env_all_dropped : Env :=
  fixed_env one_connection one_config (Ok [row_binary; row_delete]) (Ok tt) (Ok tt).

(** The events of a fetch between its query and its release: the
    checkpoint write and the lines it logs. *)
Definition checkpoint_event (e : event) : bool :=
  match e with
  | EvUpdate _ _ _ _ | EvLog _ | EvError _ => true
  | _ => false
  end.
(** ** Concrete values of the builtins *)

Example toISOString_epoch : toISOString 0 = "1970-01-01T00:00:00.000Z".
Proof. reflexivity. Qed.

Example toISOString_2024 :
  toISOString 1704240000123 = "2024-01-03T00:00:00.123Z".
Proof. reflexivity. Qed.

Example toISOString_leap_day :
  toISOString 951865199999 = "2000-02-29T22:59:59.999Z".
Proof. reflexivity. Qed.

Example toISOString_before_epoch :
  toISOString (-1) = "1969-12-31T23:59:59.999Z".
Proof. reflexivity. Qed.

Example iso_parse_2024 : iso_parse "2024-01-01T00:00:00Z" = Some 1704067200000.
Proof. reflexivity. Qed.

Example iso_parse_roundtrip_2024 :
  iso_parse (toISOString 1704240000123) = Some 1704240000123.
Proof. reflexivity. Qed.

Example iso_parse_garbage : iso_parse "not-a-date" = None.
Proof. reflexivity. Qed.

Example Number_toString_42 : Number_toString 42 = "42".
Proof. reflexivity. Qed.

Example ascii_toLowerCase_coid : ascii_toLowerCase "AcMe01" = "acme01".
Proof. reflexivity. Qed.
(** ** Equations of the monad *)

Section MonadEquations.

Context {A B : Type}.

Lemma result_bind (m : M A) (f : A -> M B) h :
  result (bind m f) h =
  match result m h with
  | Ok a => result (f a) (h ++ events m h)
  | Throw e => Throw e
  end.
Proof.
  unfold result, events, bind. destruct (m h) as [[a|e] ev]; cbn; [|reflexivity].
  destruct (f a (h ++ ev)); reflexivity.
Qed.

Lemma events_bind (m : M A) (f : A -> M B) h :
  events (bind m f) h =
  events m h ++ match result m h with
                | Ok a => events (f a) (h ++ events m h)
                | Throw _ => []
                end.
Proof.
  unfold result, events, bind. destruct (m h) as [[a|e] ev]; cbn.
  - destruct (f a (h ++ ev)); reflexivity.
  - now rewrite app_nil_r.
Qed.

Lemma result_try_catch (m : M A) (k : Error -> M A) h :
  result (try_catch m k) h =
  match result m h with
  | Ok a => Ok a
  | Throw e => result (k e) (h ++ events m h)
  end.
Proof.
  unfold result, events, try_catch. destruct (m h) as [[a|e] ev]; cbn; [reflexivity|].
  destruct (k e (h ++ ev)); reflexivity.
Qed.

Lemma events_try_catch (m : M A) (k : Error -> M A) h :
  events (try_catch m k) h =
  events m h ++ match result m h with
                | Ok _ => []
                | Throw e => events (k e) (h ++ events m h)
                end.
Proof.
  unfold result, events, try_catch. destruct (m h) as [[a|e] ev]; cbn.
  - now rewrite app_nil_r.
  - destruct (k e (h ++ ev)); reflexivity.
Qed.

Lemma result_try_finally (m : M A) (fin : M unit) h :
  result (try_finally m fin) h =
  match result fin (h ++ events m h) with
  | Ok _ => result m h
  | Throw e => Throw e
  end.
Proof.
  unfold result, events, try_finally. destruct (m h) as [r ev]; cbn.
  destruct (fin (h ++ ev)) as [[u|e] ev']; reflexivity.
Qed.

Lemma events_try_finally (m : M A) (fin : M unit) h :
  events (try_finally m fin) h = events m h ++ events fin (h ++ events m h).
Proof.
  unfold result, events, try_finally. destruct (m h) as [r ev]; cbn.
  destruct (fin (h ++ ev)) as [[u|e] ev']; reflexivity.
Qed.

End MonadEquations.

Lemma result_ret {A} (a : A) h : result (ret a) h = Ok a.
Proof. reflexivity. Qed.

Lemma events_ret {A} (a : A) h : events (ret a) h = [].
Proof. reflexivity. Qed.

Lemma result_throw {A} e h : result (@throw A e) h = Throw e.
Proof. reflexivity. Qed.

Lemma events_throw {A} e h : events (@throw A e) h = [].
Proof. reflexivity. Qed.

Lemma result_emit e h : result (emit e) h = Ok tt.
Proof. reflexivity. Qed.

Lemma events_emit e h : events (emit e) h = [e].
Proof. reflexivity. Qed.

Create Rewrite HintDb run.

#[local] Hint Rewrite @result_bind @events_bind @result_try_catch @events_try_catch
  @result_try_finally @events_try_finally @result_ret @events_ret
  @result_throw @events_throw result_emit events_emit : run.

(** ** Equations of the calls *)

Section CallEquations.

Variable E : Env.

Lemma result_cat_indices h : result (cat_indices E) h = esClient_cat_indices E h.
Proof. reflexivity. Qed.

Lemma events_cat_indices h :
  events (cat_indices E) h = [EvCatIndices (esClient_cat_indices E h)].
Proof. reflexivity. Qed.

Lemma result_search i h : result (search E i) h = esClient_search E h i.
Proof. reflexivity. Qed.

Lemma events_search i h :
  events (search E i) h = [EvSearch i (esClient_search E h i)].
Proof. reflexivity. Qed.

Lemma result_update i d u h : result (update E i d u) h = esClient_update E h i d u.
Proof. reflexivity. Qed.

Lemma events_update i d u h :
  events (update E i d u) h = [EvUpdate i d u (esClient_update E h i d u)].
Proof. reflexivity. Qed.

Lemma result_new_pool opts h : result (new_pool opts) h = Ok (List.length h).
Proof. reflexivity. Qed.

Lemma events_new_pool opts h :
  events (new_pool opts) h = [EvNewPool (List.length h) opts].
Proof. reflexivity. Qed.

Lemma result_connect pool opts h :
  result (connect E pool opts) h =
  match pg_pool_connect E h pool opts with
  | Ok n => Ok (pool, n)
  | Throw e => Throw e
  end.
Proof. reflexivity. Qed.

Lemma events_connect pool opts h :
  events (connect E pool opts) h = [EvConnect pool (result (connect E pool opts) h)].
Proof. reflexivity. Qed.

Lemma result_lower_coid s h :
  result (lower_coid E s) h = lowered_coid (toLowerCase E) s.
Proof. reflexivity. Qed.

Lemma events_lower_coid s h : events (lower_coid E s) h = [].
Proof. reflexivity. Qed.

Lemma result_query c t cur h :
  result (query E c t cur) h = pg_client_query E h c t cur.
Proof. reflexivity. Qed.

Lemma events_query c t cur h :
  events (query E c t cur) h = [EvQuery c t cur (pg_client_query E h c t cur)].
Proof. reflexivity. Qed.

Lemma result_process_field raw ft h :
  result (process_field E raw ft) h = processFieldContent E h raw ft.
Proof. reflexivity. Qed.

Lemma events_process_field raw ft h :
  events (process_field E raw ft) h =
  [EvProcessField raw ft (processFieldContent E h raw ft)].
Proof. reflexivity. Qed.

Lemma result_post i docs h : result (post E i docs) h = axios_post E h i docs.
Proof. reflexivity. Qed.

Lemma events_post i docs h :
  events (post E i docs) h = [EvPost i docs (axios_post E h i docs)].
Proof. reflexivity. Qed.

End CallEquations.

#[local] Hint Rewrite result_cat_indices events_cat_indices result_search events_search
  result_update events_update result_new_pool events_new_pool events_connect
  result_lower_coid events_lower_coid result_query events_query
  result_process_field events_process_field result_post events_post : run.

(** Unfolds the sequencing of a computation down to the calls it makes. *)
Ltac run :=
  repeat (progress (autorewrite with run;
                    unfold console_log, console_error, release)).

(** Follows [track] through a list of events that is written out, a
    client of a new pool being new ([fresh]). *)
Ltac follow_sessions fresh :=
  unfold opened, announce;
  repeat (progress (cbn [track track_event app];
                    rewrite ?fresh;
                    unfold client_eqb; cbn [fst snd]; rewrite ?Nat.eqb_refl;
                    cbn [andb]));
  try reflexivity.

(** ** The runs of [fetchUpdatedRows] *)

Lemma nonempty_snoc {A} (l : list A) :
  l <> [] -> exists l' x, l = l' ++ [x].
Proof.
  intros H. destruct (exists_last H) as (l' & x & ->). eauto.
Qed.

Lemma nth_error_snoc {A} (l : list A) x :
  nth_error (l ++ [x]) (List.length (l ++ [x]) - 1) = Some x.
Proof.
  rewrite length_app. cbn. replace (List.length l + 1 - 1)%nat with (List.length l) by lia.
  rewrite nth_error_app2 by lia. now rewrite Nat.sub_diag.
Qed.

Lemma ltb_length_snoc {A} (l : list A) x :
  (0 <? List.length (l ++ [x]))%nat = true.
Proof. apply Nat.ltb_lt. rewrite length_app. cbn. lia. Qed.

Lemma nil_or_snoc {A} (l : list A) : l = [] \/ exists l' x, l = l' ++ [x].
Proof.
  destruct l as [|a l]; [now left|right]. apply nonempty_snoc. discriminate.
Qed.

(** Every run of the fetch of a config that has a source follows one of
    the six paths. *)
Lemma fetch_from_run E config s h :
  fetch_path E config s h
    (result (fetch_from E config s) h) (events (fetch_from E config s) h).
Proof.
  unfold fetch_from. run. rewrite result_connect.
  destruct (pg_pool_connect E _ _ _) as [n|e] eqn:Hc.
  { run. rewrite <- !app_assoc. cbn [app].
    destruct (pg_client_query E _ _ _ _) as [rows|e] eqn:Hq.
    - destruct (nil_or_snoc rows) as [->|(rows' & lastRow & ->)].
      + cbn [List.length Nat.ltb Nat.leb]. run. cbn [app].
        eapply no_rows; eauto.
      + rewrite ltb_length_snoc, nth_error_snoc. unfold updateTimeInElasticsearch.
        run. rewrite <- !app_assoc. cbn [app].
        destruct (lowered_coid (toLowerCase E) s) as [lowered|e] eqn:Hl.
        * run. rewrite <- ?app_assoc. cbn [app].
          destruct (esClient_update E _ _ _ _) as [w|e] eqn:Hu.
          -- run. cbn [app]. eapply checkpoint_written; eauto.
          -- run. cbn [app message]. eapply checkpoint_failed; eauto.
        * run. cbn [app]. eapply coid_failed; eauto.
    - run. cbn [app]. eapply query_failed; eauto. }
  cbn [app]. eapply connect_failed; eauto.
Qed.

Lemma fetch_with_source E config s :
  source config = Some s -> fetchUpdatedRows E config = fetch_from E config s.
Proof. unfold fetchUpdatedRows. now intros ->. Qed.

(** On a config without source the fetch throws at once. *)
Lemma fetch_without_source E config h :
  source config = None ->
  result (fetchUpdatedRows E config) h = Throw (reading_undefined "host")
  /\ events (fetchUpdatedRows E config) h = [].
Proof. unfold fetchUpdatedRows. now intros ->. Qed.

(** ** The rows the database selects *)











(** ** Reading the calls off a list of events *)

Lemma process_calls_app a b : process_calls (a ++ b) = process_calls a ++ process_calls b.
Proof. apply flat_map_app. Qed.

Lemma post_calls_app a b : post_calls (a ++ b) = post_calls a ++ post_calls b.
Proof. apply flat_map_app. Qed.

Lemma update_calls_app a b : update_calls (a ++ b) = update_calls a ++ update_calls b.
Proof. apply flat_map_app. Qed.

Lemma search_calls_app a b : search_calls (a ++ b) = search_calls a ++ search_calls b.
Proof. apply flat_map_app. Qed.

Lemma connect_calls_app a b : connect_calls (a ++ b) = connect_calls a ++ connect_calls b.
Proof. apply flat_map_app. Qed.

Lemma query_calls_app a b : query_calls (a ++ b) = query_calls a ++ query_calls b.
Proof. apply flat_map_app. Qed.

Lemma flat_map_silent {B} (f : event -> list B) (p : event -> bool) ev :
  (forall e, p e = true -> f e = []) ->
  Forall (fun e => p e = true) ev -> flat_map f ev = [].
Proof.
  intros Hf. induction 1 as [|e ev He _ IH]; cbn; [reflexivity|].
  now rewrite (Hf e He), IH.
Qed.

Lemma transform_no_post ev :
  Forall (fun e => transform_event e = true) ev -> post_calls ev = [].
Proof. apply flat_map_silent. now intros []. Qed.

Lemma log_no_process ev :
  Forall (fun e => log_event e = true) ev -> process_calls ev = [].
Proof. apply flat_map_silent. now intros []. Qed.

Lemma log_is_transform ev :
  Forall (fun e => log_event e = true) ev ->
  Forall (fun e => transform_event e = true) ev.
Proof. apply Forall_impl. now intros []. Qed.

Lemma log_is_sink ev :
  Forall (fun e => log_event e = true) ev ->
  Forall (fun e => sink_event e = true) ev.
Proof. apply Forall_impl. now intros []. Qed.

Lemma transform_is_sink ev :
  Forall (fun e => transform_event e = true) ev ->
  Forall (fun e => sink_event e = true) ev.
Proof. apply Forall_impl. now intros []. Qed.

Lemma sink_no_update ev :
  Forall (fun e => sink_event e = true) ev -> update_calls ev = [].
Proof. apply flat_map_silent. now intros []. Qed.

Lemma sink_no_connect ev :
  Forall (fun e => sink_event e = true) ev -> connect_calls ev = [].
Proof. apply flat_map_silent. now intros []. Qed.

Lemma sink_no_search ev :
  Forall (fun e => sink_event e = true) ev -> search_calls ev = [].
Proof. apply flat_map_silent. now intros []. Qed.

Lemma sink_no_query ev :
  Forall (fun e => sink_event e = true) ev -> query_calls ev = [].
Proof. apply flat_map_silent. now intros []. Qed.

Lemma fetch_no_post ev :
  Forall (fun e => fetch_event e = true) ev -> post_calls ev = [].
Proof. apply flat_map_silent. now intros []. Qed.

Lemma fetch_no_process ev :
  Forall (fun e => fetch_event e = true) ev -> process_calls ev = [].
Proof. apply flat_map_silent. now intros []. Qed.

Lemma fetch_no_search ev :
  Forall (fun e => fetch_event e = true) ev -> search_calls ev = [].
Proof. apply flat_map_silent. now intros []. Qed.

(** ** The transformation loop *)

Section Transform.

Variable E : Env.
Variables fieldType category : string.

(** One turn of the loop: one call of the content processor, and the
    row's document is appended exactly when the call gave a truthy
    content.  The turn never throws. *)
Lemma process_row_run row documents h :
  let outcome := processFieldContent E h (new_value row) fieldType in
  let ev := events (process_row E fieldType category row documents) h in
  result (process_row E fieldType category row documents) h
    = Ok (documents ++ kept_document category row outcome)
  /\ process_calls ev = [(new_value row, fieldType, outcome)]
  /\ Forall (fun e => transform_event e = true) ev.
Proof.
  unfold process_row. run.
  destruct (processFieldContent E h (new_value row) fieldType) as [content|e];
    cbn [kept_document].
  - destruct (truthy content); run.
    + repeat split; auto. repeat constructor.
    + rewrite app_nil_r. repeat split; auto. repeat constructor.
  - run. rewrite app_nil_r. repeat split; auto. repeat constructor.
Qed.

Lemma process_rows_run rows : forall documents h,
  let ev := events (process_rows E fieldType category rows documents) h in
  result (process_rows E fieldType category rows documents) h
    = Ok (documents ++ documents_for category rows (map snd (process_calls ev)))
  /\ map fst (process_calls ev) = map (fun row => (new_value row, fieldType)) rows
  /\ Forall (fun e => transform_event e = true) ev.
Proof.
  induction rows as [|row rows IH]; intros documents h; cbn [process_rows].
  - run. cbn. rewrite app_nil_r. auto.
  - destruct (process_row_run row documents h) as (Hr & Hc & Ht).
    run. rewrite Hr.
    specialize (IH (documents ++ kept_document category row
                                   (processFieldContent E h (new_value row) fieldType))
                   (h ++ events (process_row E fieldType category row documents) h)).
    destruct IH as (IHr & IHc & IHt).
    rewrite process_calls_app, Hc. cbn [app map snd fst documents_for].
    rewrite IHr, IHc, <- app_assoc. repeat split; auto.
    apply Forall_app; auto.
Qed.

End Transform.

(** ** Publishing *)

Section Publish.

Variable E : Env.

(** [pushToAzureSearch] sends one request, and throws when it failed. *)
Lemma pushToAzureSearch_run documents indexName h :
  let r := axios_post E h indexName documents in
  exists tail,
    events (pushToAzureSearch E documents indexName) h
      = EvPost indexName documents r :: tail
    /\ Forall (fun e => log_event e = true) tail
    /\ is_ok (result (pushToAzureSearch E documents indexName) h) = is_ok r.
Proof.
  unfold pushToAzureSearch. run.
  destruct (axios_post E h indexName documents) as [u|e]; run; cbn [app];
    eexists; repeat split; repeat constructor.
Qed.

Lemma processAndIndexData_run rows fieldName fieldType category indexName h :
  let ev := events (processAndIndexData E rows fieldName fieldType category indexName) h in
  let documents := documents_for category rows (map snd (process_calls ev)) in
  map fst (process_calls ev) = map (fun row => (new_value row, fieldType)) rows
  /\ result (process_rows E fieldType category rows []) h = Ok documents
  /\ map fst (post_calls ev)
     = match documents with [] => [] | _ :: _ => [(indexName, documents)] end
  /\ Forall (fun e => sink_event e = true) ev.
Proof.
  unfold processAndIndexData. run.
  destruct (process_rows_run E fieldType category rows [] h) as (Hr & Hc & Ht).
  rewrite Hr. cbn [app] in *.
  set (ev0 := events (process_rows E fieldType category rows []) h) in *.
  set (documents := documents_for category rows (map snd (process_calls ev0))) in *.
  destruct documents as [|d documents'] eqn:Hd.
  - cbn [List.length Nat.ltb Nat.leb]. run.
    rewrite process_calls_app, post_calls_app, (transform_no_post _ Ht).
    cbn. rewrite app_nil_r. fold documents. rewrite Hd.
    repeat split; auto. apply Forall_app; split.
    + now apply transform_is_sink.
    + repeat constructor.
  - replace (0 <? List.length (d :: documents'))%nat with true by reflexivity.
    run.
    destruct (pushToAzureSearch_run (d :: documents') indexName (h ++ ev0))
      as (tail & Hev & Htail & Hok).
    rewrite Hev.
    set (after := match result (pushToAzureSearch E (d :: documents') indexName) (h ++ ev0)
                  with Ok _ => _ | Throw _ => _ end).
    assert (Hafter : Forall (fun e => log_event e = true) after).
    { subst after. destruct (result (pushToAzureSearch _ _ _) _); run; repeat constructor. }
    change (EvPost indexName (d :: documents') ?r :: tail)
      with ([EvPost indexName (d :: documents') r] ++ tail).
    rewrite !process_calls_app, !post_calls_app, (transform_no_post _ Ht).
    rewrite (transform_no_post _ (log_is_transform _ Htail)),
      (transform_no_post _ (log_is_transform _ Hafter)),
      (log_no_process _ Htail), (log_no_process _ Hafter).
    cbn [process_calls post_calls flat_map app map fst].
    rewrite app_nil_r. fold (process_calls ev0). fold documents. rewrite Hd.
    repeat split; auto.
    apply Forall_app; split; [now apply transform_is_sink|].
    constructor; [reflexivity|].
    apply Forall_app; split; apply transform_is_sink, log_is_transform; auto.
Qed.

End Publish.

(** ** The documents of a batch *)

Lemma kept_document_In category row outcome d :
  In d (kept_document category row outcome) ->
  exists content, outcome = Ok content /\ truthy content = true
                  /\ d = document_of row content category.
Proof.
  destruct outcome as [content|e]; cbn; [|tauto].
  destruct (truthy content) eqn:Ht; cbn; [|tauto].
  intros [<-|[]]. eauto.
Qed.

Lemma documents_for_In category rows : forall outcomes d,
  In d (documents_for category rows outcomes) ->
  exists row content,
    In row rows /\ In (Ok content) outcomes /\ truthy content = true
    /\ d = document_of row content category.
Proof.
  induction rows as [|row rows IH]; intros [|outcome outcomes] d; cbn; try tauto.
  intros H. apply in_app_or in H as [H|H].
  - apply kept_document_In in H as (content & -> & Ht & ->).
    exists row, content. auto.
  - apply IH in H as (row' & content & Hrow & Hout & Ht & ->).
    exists row', content. auto.
Qed.

(** C7.  In the transformation of a batch every row is handed to the
    content processor, in order, whatever the processing of the rows
    before it gave; the documents of the batch are those of the rows
    whose processing returned a truthy content, the rows whose processing
    returned an empty or absent content or threw being left out; and
    when there is such a document, the batch published is exactly these
    documents. *)
Theorem failing_rows_are_left_out
    E rows fieldName fieldType category indexName h :
  let ev := events (processAndIndexData E rows fieldName fieldType category indexName) h in
  let documents := documents_for category rows (map snd (process_calls ev)) in
  map fst (process_calls ev) = map (fun row => (new_value row, fieldType)) rows
  /\ result (process_rows E fieldType category rows []) h = Ok documents
  /\ map fst (post_calls ev)
     = match documents with [] => [] | _ :: _ => [(indexName, documents)] end.
Proof.
  intros ev documents.
  destruct (processAndIndexData_run E rows fieldName fieldType category indexName h)
    as (Hcalls & Hr & Hposts & _).
  auto.
Qed.

(** C8.  Every document of a published batch is the document of a row
    of the fetched batch: its action is "upload" when the row's action
    type is INSERT and "mergeOrUpload" for any other action type, and its
    id is the row's id as a string. *)
Theorem document_action_and_id
    E rows fieldName fieldType category indexName h target documents r d :
  In (target, documents, r)
     (post_calls (events (processAndIndexData E rows fieldName fieldType
                            category indexName) h)) ->
  In d documents ->
  exists row content,
    In row rows
    /\ d = document_of row content category
    /\ doc_search_action d
       = (if String.eqb (action_type row) "INSERT" then "upload"
          else "mergeOrUpload")%string
    /\ doc_id d = Number_toString (row_id row).
Proof.
  intros Hpost Hd.
  destruct (processAndIndexData_run E rows fieldName fieldType category indexName h)
    as (_ & _ & Hposts & _).
  apply (in_map fst) in Hpost. rewrite Hposts in Hpost. cbn [fst] in Hpost.
  destruct (documents_for category rows _) as [|d0 documents0] eqn:Hdocs;
    [destruct Hpost|].
  destruct Hpost as [Heq|[]]. injection Heq as _ <-.
  rewrite <- Hdocs in Hd.
  apply documents_for_In in Hd as (row & content & Hrow & _ & _ & ->).
  exists row, content. auto.
Qed.

(** The UPDATE of the two-row batch. *)
Lemma document_action_and_id_witness :
  post_calls (events (processAndIndexData env_two_rows [row_insert; row_update]
                        "body" "text" "news" "tenant_acme") [])
  = [("tenant_acme"%string,
      [document_of row_insert (JStr "first") "news";
       document_of row_update (JStr "second") "news"], Ok tt)]
  /\ exists row content,
       In row [row_insert; row_update]
       /\ document_of row_update (JStr "second") "news"
          = document_of row content "news"
       /\ doc_search_action (document_of row_update (JStr "second") "news")
          = (if String.eqb (action_type row) "INSERT" then "upload"
             else "mergeOrUpload")%string
       /\ doc_id (document_of row_update (JStr "second") "news")
          = Number_toString (row_id row).
Proof.
  split; [reflexivity|].
  apply (document_action_and_id env_two_rows [row_insert; row_update]
           "body" "text" "news" "tenant_acme" []
           "tenant_acme"
           [document_of row_insert (JStr "first") "news";
            document_of row_update (JStr "second") "news"]
           (Ok tt)).
  - left. reflexivity.
  - right. left. reflexivity.
Defined.

(** C10.  The sink receives one request, carrying the documents of the
    batch, when the transformation produced at least one document, and
    no request when it produced none. *)
Theorem publish_only_when_documents
    E rows fieldName fieldType category indexName h :
  let ev := events (processAndIndexData E rows fieldName fieldType category indexName) h in
  exists documents,
    result (process_rows E fieldType category rows []) h = Ok documents
    /\ map fst (post_calls ev)
       = (if (0 <? List.length documents)%nat then [(indexName, documents)] else [])
    /\ (post_calls ev = [] <-> documents = []).
Proof.
  intros ev.
  destruct (processAndIndexData_run E rows fieldName fieldType category indexName h)
    as (_ & Hr & Hposts & _).
  eexists. split; [exact Hr|].
  fold ev in Hposts. rewrite Hposts.
  destruct (documents_for category rows _) as [|d documents]; cbn.
  - split; [reflexivity|]. split; [reflexivity|].
    intros _. destruct (post_calls ev); [reflexivity|discriminate Hposts].
  - split; [reflexivity|]. split; [|discriminate].
    intros Hnil. rewrite Hnil in Hposts. discriminate Hposts.
Qed.

(** ** One configuration *)

Section OneConfig.

Variable E : Env.
Variable config : Config.
Variable s : Source.
Hypothesis has_source : source config = Some s.
Variable h : History.

Let fetched := events (fetchUpdatedRows E config) h.

(** On a config that has a source, [process_config] runs the fetch,
    then, when the fetch returned rows, the transformation and the
    publish; whatever is thrown is logged. *)
Lemma process_config_run :
  result (process_config E config) h = Ok tt
  /\ exists tail,
       events (process_config E config) h = fetched ++ tail
       /\ match result (fetchUpdatedRows E config) h with
          | Ok [] => tail = []
          | Ok (row :: rows) =>
              match lowered_coid (toLowerCase E) s with
              | Ok lowered =>
                  exists logs,
                    tail = events (processAndIndexData E (row :: rows)
                                     (field_name s) (field_type s) (category s)
                                     ("tenant_" ++ lowered)) (h ++ fetched)
                           ++ logs
                    /\ Forall (fun e => log_event e = true) logs
              | Throw _ => Forall (fun e => log_event e = true) tail
              end
          | Throw _ => Forall (fun e => log_event e = true) tail
          end.
Proof.
  unfold process_config. rewrite has_source. run. fold fetched.
  destruct (result (fetchUpdatedRows E config) h) as [[|row rows]|e].
  - cbn [List.length Nat.ltb Nat.leb]. run. split; [reflexivity|].
    exists []. now rewrite !app_nil_r.
  - replace (0 <? List.length (row :: rows))%nat with true by reflexivity.
    run. destruct (lowered_coid (toLowerCase E) s) as [lowered|e].
    + run. cbn [app]. rewrite !app_nil_r.
      set (publish := processAndIndexData E (row :: rows) (field_name s)
                        (field_type s) (category s) ("tenant_" ++ lowered)).
      destruct (result publish (h ++ fetched)) as [u|e].
      * run. split; [reflexivity|]. rewrite ?app_nil_r.
        eexists. split; [reflexivity|]. eexists. split; [reflexivity|].
        repeat constructor.
      * run. split; [reflexivity|]. rewrite ?app_nil_r, <- ?app_assoc.
        eexists. split; [reflexivity|]. eexists. split; [reflexivity|].
        repeat constructor.
    + run. split; [reflexivity|]. rewrite ?app_nil_r.
      eexists. split; [reflexivity|]. repeat constructor.
  - run. split; [reflexivity|]. rewrite app_nil_r.
    eexists. split; [reflexivity|]. repeat constructor.
Qed.

(** What the fetch adds are calls to the change-log source and to the
    metadata store, and log lines. *)
Lemma fetch_events_only :
  Forall (fun e => fetch_event e = true) fetched.
Proof.
  subst fetched. rewrite (fetch_with_source E config s has_source).
  destruct (fetch_from_run E config s h); repeat constructor.
Qed.

End OneConfig.

(** On a config without source the fetch throws, the handler throws in
    its turn, and the step has made no call. *)
Lemma process_config_without_source E config h :
  source config = None ->
  result (process_config E config) h = Throw (reading_undefined "table_name")
  /\ events (process_config E config) h = [].
Proof.
  intros Hnone. unfold process_config, fetchUpdatedRows. rewrite Hnone. run.
  now split.
Qed.

(** The fetch adds calls to the change-log source and to the metadata
    store only, whatever the config. *)
Lemma fetch_events_only_any E config h :
  Forall (fun e => fetch_event e = true) (events (fetchUpdatedRows E config) h).
Proof.
  destruct (source config) as [s|] eqn:Hs.
  - now apply (fetch_events_only E config s).
  - destruct (fetch_without_source E config h Hs) as (_ & ->). constructor.
Qed.

(** ** The checkpoint *)

Lemma lowered_coid_ok lower s lowered :
  lowered_coid lower s = Ok lowered -> exists c, coid s = JStr c /\ lowered = lower c.
Proof.
  unfold lowered_coid. destruct (coid s) as [| |b|n|c]; try discriminate.
  intros [= <-]. eauto.
Qed.

Section Checkpoint.

Variable E : Env.
Variable config : Config.
Variable h : History.

(** A fetch that returns rows has written the change time of the last
    of them, once, after the query and before the release. *)
Lemma fetch_returned_rows rows :
  result (fetchUpdatedRows E config) h = Ok rows -> rows <> [] ->
  exists s c n front lastRow w before,
    source config = Some s /\ coid s = JStr c
    /\ rows = front ++ [lastRow]
    /\ events (fetchUpdatedRows E config) h
       = before ++ [EvUpdate (connections_prefix ++ toLowerCase E c) (config_id config)
                      (toISOString (change_time lastRow)) (Ok w);
                    EvLog ("Updated updatedAt for docId " ++ config_id config
                           ++ " in index " ++ connections_prefix ++ toLowerCase E c);
                    EvRelease (List.length h, n)]
    /\ update_calls before = []
    /\ query_calls before
       = [((List.length h, n), changelog_query (field_name s) (table_name s),
           lastIndexedTime E s, Ok rows)]
    /\ delivered E s h n = Ok rows.
Proof.
  intros Hr Hne. destruct (source config) as [s|] eqn:Hs.
  2:{ destruct (fetch_without_source E config h Hs) as (Hthrow & _). congruence. }
  rewrite (fetch_with_source E config s Hs) in *.
  pose proof (fetch_from_run E config s h) as P. rewrite Hr in P.
  remember (events (fetch_from E config s) h) as ev eqn:Hev. clear Hev.
  remember (Ok rows) as r eqn:Hrows.
  destruct P as [| |n Hc Hq| |n front lastRow lowered w Hc Hq Hl Hw|];
    try discriminate; injection Hrows as <-.
  - congruence.
  - apply lowered_coid_ok in Hl as (c & Hcoid & ->).
    exists s, c, n, front, lastRow, w. eexists. repeat split; auto.
    + unfold opened.
      change (?a ++ [?q; ?l; ?x; ?y; ?z]) with ((a ++ [q; l]) ++ [x; y; z]).
      reflexivity.
    + reflexivity.
    + reflexivity.
Qed.

(** A fetch that returns no row has written nothing. *)
Lemma fetch_returned_nothing :
  result (fetchUpdatedRows E config) h = Ok [] ->
  update_calls (events (fetchUpdatedRows E config) h) = []
  /\ exists s, source config = Some s.
Proof.
  intros Hr. destruct (source config) as [s|] eqn:Hs.
  2:{ destruct (fetch_without_source E config h Hs) as (Hthrow & _). congruence. }
  split; [|eauto]. rewrite (fetch_with_source E config s Hs) in *.
  pose proof (fetch_from_run E config s h) as P. rewrite Hr in P.
  remember (events (fetch_from E config s) h) as ev eqn:Hev. clear Hev.
  remember (Ok []) as r eqn:Hrows.
  destruct P as [| |n Hc Hq| |n front lastRow lowered w Hc Hq Hl Hw|];
    try discriminate.
  - reflexivity.
  - injection Hrows as Hrows. now destruct front.
Qed.

End Checkpoint.

(** After a fetch that returned rows come the transformation and the
    publish into the tenant index, and log lines. *)
Lemma process_config_after_rows E config h rows :
  result (fetchUpdatedRows E config) h = Ok rows -> rows <> [] ->
  exists s c logs,
    source config = Some s /\ coid s = JStr c
    /\ events (process_config E config) h
       = events (fetchUpdatedRows E config) h
         ++ events (processAndIndexData E rows (field_name s) (field_type s)
                      (category s) ("tenant_" ++ toLowerCase E c))
              (h ++ events (fetchUpdatedRows E config) h)
         ++ logs
    /\ Forall (fun e => log_event e = true) logs.
Proof.
  intros Hr Hne.
  destruct (fetch_returned_rows E config h rows Hr Hne)
    as (s & c & _ & _ & _ & _ & _ & Hs & Hcoid & _).
  destruct (process_config_run E config s Hs h) as (_ & tail & Htail & Hshape).
  rewrite Hr in Hshape. destruct rows as [|row rows']; [congruence|].
  unfold lowered_coid in Hshape. rewrite Hcoid in Hshape.
  destruct Hshape as (logs & -> & Hlogs).
  exists s, c, logs. auto.
Qed.

(** C1 (as amended).  For every config whose fetch returns at least one
    row, the checkpoint is written by the fetch itself, after the
    change-log query and before the release of the session: the events of
    the fetch are the query, the one checkpoint write, of the change time
    of the last row, and the release, with no transformation or publish
    call among them.  The events of the config are those of the fetch
    followed by a tail that holds the transformation of the rows and the
    publish, and no checkpoint write.  So the write precedes the publish
    and does not depend on its outcome. *)
Theorem checkpoint_is_written_by_the_fetch E config h rows :
  result (fetchUpdatedRows E config) h = Ok rows -> rows <> [] ->
  exists s c n front lastRow w before tail,
    source config = Some s /\ coid s = JStr c
    /\ rows = front ++ [lastRow]
    /\ events (fetchUpdatedRows E config) h
       = before
         ++ [EvUpdate (connections_prefix ++ toLowerCase E c)
               (config_id config) (toISOString (change_time lastRow)) (Ok w);
             EvLog ("Updated updatedAt for docId " ++ config_id config ++ " in index "
                    ++ connections_prefix ++ toLowerCase E c);
             EvRelease (List.length h, n)]
    /\ query_calls before
       = [((List.length h, n), changelog_query (field_name s) (table_name s),
           lastIndexedTime E s, Ok rows)]
    /\ update_calls before = []
    /\ process_calls (events (fetchUpdatedRows E config) h) = []
    /\ post_calls (events (fetchUpdatedRows E config) h) = []
    /\ events (process_config E config) h
       = events (fetchUpdatedRows E config) h ++ tail
    /\ update_calls tail = []
    /\ map fst (process_calls tail)
       = map (fun row => (new_value row, field_type s)) rows.
Proof.
  intros Hr Hne.
  destruct (fetch_returned_rows E config h rows Hr Hne)
    as (s & c & n & front & lastRow & w & before
        & Hs & Hcoid & Hrows & Hev & Hbefore & Hquery & _).
  destruct (process_config_after_rows E config h rows Hr Hne)
    as (s' & c' & logs & Hs' & Hcoid' & Htail & Hlogs).
  assert (s' = s) by congruence. subst s'. assert (c' = c) by congruence. subst c'.
  pose proof (fetch_events_only E config s Hs h) as Hfetch.
  destruct (processAndIndexData_run E rows (field_name s) (field_type s) (category s)
              ("tenant_" ++ toLowerCase E c)%string
              (h ++ events (fetchUpdatedRows E config) h))
    as (Hcalls & _ & _ & Hsink).
  exists s, c, n, front, lastRow, w, before. eexists.
  split; [exact Hs|]. split; [exact Hcoid|].
  split; [exact Hrows|]. split; [exact Hev|]. split; [exact Hquery|].
  split; [exact Hbefore|]. split; [now apply fetch_no_process|].
  split; [now apply fetch_no_post|]. split; [exact Htail|].
  split.
  - rewrite update_calls_app, (sink_no_update _ Hsink).
    now rewrite (sink_no_update _ (log_is_sink _ Hlogs)).
  - now rewrite process_calls_app, (log_no_process _ Hlogs), app_nil_r.
Qed.

(** The sink refuses the batch, and the checkpoint has been written. *)
Lemma checkpoint_is_written_by_the_fetch_witness :
  result (fetchUpdatedRows env_publish_fails acme_config) [] = Ok [row_insert; row_update]
  /\ exists s c n front lastRow w before tail,
       source acme_config = Some s /\ coid s = JStr c
       /\ [row_insert; row_update] = front ++ [lastRow]
       /\ events (fetchUpdatedRows env_publish_fails acme_config) []
          = before
            ++ [EvUpdate (connections_prefix ++ ascii_toLowerCase c) "cfg-1"
                  (toISOString (change_time lastRow)) (Ok w);
                EvLog ("Updated updatedAt for docId cfg-1 in index "
                       ++ connections_prefix ++ ascii_toLowerCase c);
                EvRelease (0%nat, n)]
       /\ query_calls before
          = [((0%nat, n), changelog_query (field_name s) (table_name s),
              lastIndexedTime env_publish_fails s, Ok [row_insert; row_update])]
       /\ update_calls before = []
       /\ process_calls (events (fetchUpdatedRows env_publish_fails acme_config) []) = []
       /\ post_calls (events (fetchUpdatedRows env_publish_fails acme_config) []) = []
       /\ events (process_config env_publish_fails acme_config) []
          = events (fetchUpdatedRows env_publish_fails acme_config) [] ++ tail
       /\ update_calls tail = []
       /\ map fst (process_calls tail)
          = map (fun row => (new_value row, field_type s)) [row_insert; row_update].
Proof.
  split; [reflexivity|].
  apply (checkpoint_is_written_by_the_fetch env_publish_fails acme_config []
           [row_insert; row_update]).
  - reflexivity.
  - discriminate.
Defined.

(** C1 as worded fails: with a sink that refuses the batch, the run of
    the configuration shows the failed publish and, before it, the
    checkpoint write of the last row's change time. *)
Lemma checkpoint_written_although_publish_failed :
  let ev := events (process_config env_publish_fails acme_config) [] in
  map snd (post_calls ev) = [unreachable]
  /\ update_calls ev
     = [("datasource_postgresql_connection_acme"%string, "cfg-1"%string,
         "2024-01-03T00:00:00.000Z"%string, Ok tt)]
  /\ update_calls (events (fetchUpdatedRows env_publish_fails acme_config) [])
     = update_calls ev
  /\ ~ checkpoint_follows_publish env_publish_fails acme_config [].
Proof.
  repeat split; try reflexivity.
  intros H.
  destruct (H [row_insert; row_update] eq_refl ltac:(discriminate)) as (H1 & _).
  vm_compute in H1. discriminate.
Qed.



(** C3.  For every config whose fetch returns zero rows, processing the
    config makes no checkpoint write, no call of the content processor
    (no document is produced) and no publish call. *)
Theorem no_rows_no_write_no_publish E config h :
  result (fetchUpdatedRows E config) h = Ok [] ->
  update_calls (events (process_config E config) h) = []
  /\ process_calls (events (process_config E config) h) = []
  /\ post_calls (events (process_config E config) h) = [].
Proof.
  intros Hr.
  destruct (fetch_returned_nothing E config h Hr) as (Hnone & s & Hs).
  destruct (process_config_run E config s Hs h) as (_ & tail & Htail & Hshape).
  rewrite Hr in Hshape. subst tail. rewrite app_nil_r in Htail. rewrite Htail.
  pose proof (fetch_events_only E config s Hs h) as Hfetch.
  repeat split.
  - exact Hnone.
  - now apply fetch_no_process.
  - now apply fetch_no_post.
Qed.

Lemma no_rows_no_write_no_publish_witness :
  result (fetchUpdatedRows env_no_rows acme_config) [] = Ok []
  /\ update_calls (events (process_config env_no_rows acme_config) []) = []
  /\ process_calls (events (process_config env_no_rows acme_config) []) = []
  /\ post_calls (events (process_config env_no_rows acme_config) []) = [].
Proof.
  split; [reflexivity|].
  apply (no_rows_no_write_no_publish env_no_rows acme_config []). reflexivity.
Defined.

(** ** The cursor of the fetch *)

(** C5 (as amended).  For every config, the cursor of the change-log
    query is the epoch when [updatedAt] is absent or otherwise falsy
    (null, false, 0, the empty string), and [updatedAt] as a date
    otherwise: the timestamp it parses to when it is a parseable string,
    and the Invalid Date, not the epoch, when it is a string that does
    not parse. *)
Theorem cursor_is_checkpoint_or_epoch E (s : Source) :
  lastIndexedTime E s = cursor_of_code (Date_parse E) (updatedAt s).
Proof.
  unfold lastIndexedTime, js_or, cursor_of_code.
  destruct (updatedAt s) as [| |[|]|n|str]; cbn [truthy new_Date negb];
    try reflexivity.
  - destruct (Z.eqb_spec n 0) as [->|Hn]; reflexivity.
  - destruct (String.eqb str ""); reflexivity.
Qed.

(** C5 as worded fails: a checkpoint that does not parse gives the
    Invalid Date as cursor, where the specification has the epoch. *)
Lemma unparseable_checkpoint_is_not_the_epoch :
  let s := with_updatedAt acme (JStr "not-a-date") in
  Date_parse env_two_rows "not-a-date" = None
  /\ lastIndexedTime env_two_rows s = InvalidDate
  /\ cursor_of_spec (Date_parse env_two_rows) (updatedAt s) = epoch
  /\ lastIndexedTime env_two_rows s
     <> cursor_of_spec (Date_parse env_two_rows) (updatedAt s).
Proof. repeat split; try reflexivity. discriminate. Qed.

(** A config that was never synchronized is fetched from the epoch, and
    a stored checkpoint is the cursor. *)
Example cursor_without_checkpoint :
  lastIndexedTime env_two_rows (with_updatedAt acme JUndefined) = epoch.
Proof. reflexivity. Qed.

Example cursor_with_checkpoint :
  lastIndexedTime env_two_rows acme = TimeValue 1704067200000.
Proof. reflexivity. Qed.

(** ** The loops over configurations and connections *)

Section Cycle.

Variable E : Env.

Lemma process_index_result indexName h :
  result (process_index E indexName) h = Ok tt.
Proof.
  unfold process_index. run.
  destruct (result (fetchIndexDetails E indexName) h) as [configs|e].
  - destruct (result (process_configs E configs) _) as [[]|e]; run; reflexivity.
  - run. reflexivity.
Qed.

(** A connection: the search, the configs it returned for as long as
    none of them throws, and log lines. *)
Lemma process_index_shape indexName h :
  exists logs,
    events (process_index E indexName) h
    = events (fetchIndexDetails E indexName) h
      ++ match result (fetchIndexDetails E indexName) h with
         | Ok configs =>
             events (process_configs E configs)
               (h ++ events (fetchIndexDetails E indexName) h)
         | Throw _ => []
         end
      ++ logs
    /\ Forall (fun e => log_event e = true) logs.
Proof.
  unfold process_index. run.
  destruct (result (fetchIndexDetails E indexName) h) as [configs|e].
  - destruct (result (process_configs E configs) _) as [[]|e]; run;
      rewrite ?app_nil_r, <- ?app_assoc; eexists; split;
      try (rewrite ?app_nil_r; reflexivity); repeat constructor.
  - run. rewrite ?app_nil_r. cbn [app]. eexists. split; [reflexivity|].
    repeat constructor.
Qed.

Lemma processIndices_result indices : forall h,
  result (processIndices E indices) h = Ok tt.
Proof.
  induction indices as [|indexName indices IH]; intros h; cbn [processIndices]; run.
  - reflexivity.
  - rewrite process_index_result. apply IH.
Qed.

(** [fetchIndexDetails] makes one search, and throws when it failed. *)
Lemma fetchIndexDetails_run indexName h :
  let r := esClient_search E h indexName in
  exists logs,
    events (fetchIndexDetails E indexName) h = EvSearch indexName r :: logs
    /\ Forall (fun e => log_event e = true) logs
    /\ match r with
       | Ok hits =>
           result (fetchIndexDetails E indexName) h
           = Ok (map (fun hit => {| config_id := hit_id hit;
                                    source := hit_source hit |}) hits)
       | Throw _ => is_ok (result (fetchIndexDetails E indexName) h) = false
       end.
Proof.
  unfold fetchIndexDetails. run.
  destruct (esClient_search E h indexName) as [hits|e]; run; cbn [app];
    eexists; repeat split; repeat constructor.
Qed.

(** The entry point: the discovery, then the loop over what it found. *)
Lemma lastModifiedListener_run h :
  let started := EvLog "Fetching indices with prefix..." in
  match esClient_cat_indices E (h ++ [started]) with
  | Ok found =>
      let indices :=
        map index (filter (fun i => startsWith (index i) connections_prefix) found) in
      events (lastModifiedListener E) h
      = [started; EvCatIndices (Ok found)]
        ++ (if (0 <? List.length indices)%nat
            then events (processIndices E indices)
                   (h ++ [started; EvCatIndices (Ok found)])
            else [EvLog "No indices found with the specified prefix."])
  | Throw e =>
      events (lastModifiedListener E) h
      = [started;
         EvCatIndices (Throw e);
         EvError ("Error fetching indices from Elasticsearch: " ++ message e);
         EvError ("Error during periodic indexing: "
                  ++ "Failed to fetch indices from Elasticsearch")]
  end.
Proof.
  unfold lastModifiedListener, fetchIndicesWithPrefix. run.
  destruct (esClient_cat_indices E (h ++ [EvLog "Fetching indices with prefix..."]))
    as [found|e]; run.
  - rewrite !app_nil_r, <- !app_assoc. cbn [app].
    destruct (0 <? List.length _)%nat.
    + now rewrite processIndices_result, app_nil_r.
    + run. reflexivity.
  - reflexivity.
Qed.

Lemma lastModifiedListener_result h : result (lastModifiedListener E) h = Ok tt.
Proof.
  unfold lastModifiedListener, fetchIndicesWithPrefix. run.
  destruct (esClient_cat_indices E (h ++ [EvLog "Fetching indices with prefix..."]))
    as [found|e]; run.
  - destruct (0 <? List.length _)%nat.
    + now rewrite processIndices_result.
    + run. reflexivity.
  - reflexivity.
Qed.

End Cycle.

(** C4 (as amended).  The entry point returns normally on every run:
    with failures inside connections and configs, and also when the
    discovery of the connections fails.  In that last case the failure is
    logged and nothing else is attempted. *)
Theorem entry_point_returns_normally E h :
  result (lastModifiedListener E) h = Ok tt
  /\ match esClient_cat_indices E (h ++ [EvLog "Fetching indices with prefix..."]) with
     | Throw e =>
         events (lastModifiedListener E) h
         = [EvLog "Fetching indices with prefix...";
            EvCatIndices (Throw e);
            EvError ("Error fetching indices from Elasticsearch: " ++ message e);
            EvError ("Error during periodic indexing: "
                     ++ "Failed to fetch indices from Elasticsearch")]
     | Ok _ => True
     end.
Proof.
  split; [apply lastModifiedListener_result|].
  pose proof (lastModifiedListener_run E h) as Hrun. cbv zeta in Hrun.
  destruct (esClient_cat_indices E (h ++ [EvLog "Fetching indices with prefix..."]));
    [exact I|exact Hrun].
Qed.

(** C4 as worded fails: when the catalog of the metadata store is
    unreachable, discovery fails and the entry point returns normally. *)
Lemma discovery_failure_is_not_thrown :
  events (lastModifiedListener env_discovery_fails) []
  = [EvLog "Fetching indices with prefix...";
     EvCatIndices unreachable;
     EvError "Error fetching indices from Elasticsearch: ECONNREFUSED";
     EvError "Error during periodic indexing: Failed to fetch indices from Elasticsearch"]
  /\ result (lastModifiedListener env_discovery_fails) [] = Ok tt
  /\ ~ throws_iff_discovery_fails env_discovery_fails [].
Proof.
  repeat split; try reflexivity.
  intros [_ H].
  destruct H as [e He]; [|discriminate He].
  exists {| message := "ECONNREFUSED" |}. right. now left.
Qed.

(** ** Induction over a cycle *)

Section IndexInduction.

Variable E : Env.

(** A property of lists of events that holds of the empty list, of the
    events between the connections, and of what any connection adds, and
    that joins along concatenation, holds of a whole cycle. *)
Variable P : list event -> Prop.
Hypothesis P_nil : P [].
Hypothesis P_app : forall a b, P a -> P b -> P (a ++ b).
Hypothesis P_glue : forall e, glue_event e = true -> P [e].
Hypothesis P_index : forall indexName h, P (events (process_index E indexName) h).

Lemma P_glues ev : Forall (fun e => glue_event e = true) ev -> P ev.
Proof.
  induction 1 as [|e ev He _ IH]; [exact P_nil|].
  change (e :: ev) with ([e] ++ ev). auto.
Qed.

Lemma processIndices_by_index indices : forall h,
  P (events (processIndices E indices) h).
Proof.
  induction indices as [|indexName indices IH]; intros h; cbn [processIndices]; run.
  - exact P_nil.
  - rewrite process_index_result. apply P_app; [apply P_index|apply IH].
Qed.

Lemma lastModifiedListener_by_index h : P (events (lastModifiedListener E) h).
Proof.
  pose proof (lastModifiedListener_run E h) as Hrun. cbv zeta in Hrun.
  destruct (esClient_cat_indices E (h ++ [EvLog "Fetching indices with prefix..."]))
    as [found|e]; rewrite Hrun.
  - apply P_app; [apply P_glues; repeat constructor|].
    destruct (0 <? List.length _)%nat.
    + apply processIndices_by_index.
    + apply P_glues. repeat constructor.
  - apply P_glues. repeat constructor.
Qed.

End IndexInduction.

Lemma log_is_glue ev :
  Forall (fun e => log_event e = true) ev -> Forall (fun e => glue_event e = true) ev.
Proof. apply Forall_impl. now intros []. Qed.

Section CycleInduction.

Variable E : Env.

(** The same, from what any config adds. *)
Variable P : list event -> Prop.
Hypothesis P_nil : P [].
Hypothesis P_app : forall a b, P a -> P b -> P (a ++ b).
Hypothesis P_glue : forall e, glue_event e = true -> P [e].
Hypothesis P_config : forall config h, P (events (process_config E config) h).

Lemma process_configs_ind configs : forall h, P (events (process_configs E configs) h).
Proof.
  induction configs as [|config configs IH]; intros h; cbn [process_configs]; run.
  - exact P_nil.
  - apply P_app; [apply P_config|].
    destruct (result (process_config E config) h); [apply IH|exact P_nil].
Qed.

Lemma process_index_ind indexName h : P (events (process_index E indexName) h).
Proof.
  destruct (process_index_shape E indexName h) as (logs & -> & Hlogs).
  destruct (fetchIndexDetails_run E indexName h) as (logs' & Hev & Hlogs' & _).
  apply P_app; [|apply P_app].
  - rewrite Hev. apply (P_glues P P_nil P_app P_glue).
    constructor; [reflexivity|now apply log_is_glue].
  - destruct (result (fetchIndexDetails E indexName) h);
      [apply process_configs_ind|exact P_nil].
  - now apply (P_glues P P_nil P_app P_glue), log_is_glue.
Qed.

Lemma lastModifiedListener_ind h : P (events (lastModifiedListener E) h).
Proof.
  apply (lastModifiedListener_by_index E P P_nil P_app P_glue), process_index_ind.
Qed.

End CycleInduction.

(** ** Failure isolation *)

Lemma hits_read_app a b : hits_read (a ++ b) = hits_read a ++ hits_read b.
Proof. unfold hits_read. now rewrite search_calls_app, flat_map_app. Qed.

Lemma pool_calls_app a b : pool_calls (a ++ b) = pool_calls a ++ pool_calls b.
Proof. apply flat_map_app. Qed.

Lemma sources_of_app a b : sources_of (a ++ b) = sources_of a ++ sources_of b.
Proof. apply flat_map_app. Qed.

Lemma log_no_search ev :
  Forall (fun e => log_event e = true) ev -> search_calls ev = [].
Proof. intros H. now apply sink_no_search, log_is_sink. Qed.

Lemma log_no_connect ev :
  Forall (fun e => log_event e = true) ev -> connect_calls ev = [].
Proof. intros H. now apply sink_no_connect, log_is_sink. Qed.

Lemma sink_no_pool ev :
  Forall (fun e => sink_event e = true) ev -> pool_calls ev = [].
Proof. apply flat_map_silent. now intros []. Qed.

Section Isolation.

Variable E : Env.

(** What follows the fetch of a config calls neither the change-log
    source nor the metadata store. *)
Lemma process_config_split config h :
  exists tail,
    events (process_config E config) h = events (fetchUpdatedRows E config) h ++ tail
    /\ Forall (fun e => sink_event e = true) tail.
Proof.
  destruct (source config) as [s|] eqn:Hs.
  - destruct (process_config_run E config s Hs h) as (_ & tail & Htail & Hshape).
    exists tail. split; [exact Htail|].
    destruct (result (fetchUpdatedRows E config) h) as [[|row rows]|e].
    + subst tail. constructor.
    + destruct (lowered_coid _ s); [|now apply log_is_sink].
      destruct Hshape as (logs & -> & Hlogs). apply Forall_app. split.
      * apply processAndIndexData_run.
      * now apply log_is_sink.
    + now apply log_is_sink.
  - destruct (process_config_without_source E config h Hs) as (_ & ->).
    destruct (fetch_without_source E config h Hs) as (_ & ->).
    exists []. now split.
Qed.

(** A config that has a source gets its fetch: one pool, built from its
    source, and one request for a client. *)
Lemma process_config_attempt config s h :
  source config = Some s ->
  result (process_config E config) h = Ok tt
  /\ search_calls (events (process_config E config) h) = []
  /\ map snd (pool_calls (events (process_config E config) h)) = [pool_options s]
  /\ List.length (connect_calls (events (process_config E config) h)) = 1%nat.
Proof.
  intros Hs. split; [apply (process_config_run E config s Hs h)|].
  destruct (process_config_split config h) as (tail & -> & Hsink).
  rewrite search_calls_app, pool_calls_app, connect_calls_app.
  rewrite (sink_no_search _ Hsink), (sink_no_pool _ Hsink), (sink_no_connect _ Hsink),
    !app_nil_r.
  split; [apply fetch_no_search, (fetch_events_only E config s Hs)|].
  rewrite (fetch_with_source E config s Hs).
  destruct (fetch_from_run E config s h); now split.
Qed.

Lemma process_configs_attempts hits : forall h,
  forallb has_source hits = true ->
  let configs := map (fun hit => {| config_id := hit_id hit; source := hit_source hit |})
                     hits in
  result (process_configs E configs) h = Ok tt
  /\ search_calls (events (process_configs E configs) h) = []
  /\ map snd (pool_calls (events (process_configs E configs) h))
     = map pool_options (sources_of hits)
  /\ List.length (connect_calls (events (process_configs E configs) h))
     = List.length hits.
Proof.
  induction hits as [|hit hits IH]; intros h Hall; cbn [map process_configs]; run.
  - now repeat split.
  - cbn [forallb] in Hall. apply andb_prop in Hall as (Hhit & Hall).
    unfold has_source in Hhit. destruct (hit_source hit) as [s|] eqn:Hs;
      [|discriminate Hhit].
    set (config := {| config_id := hit_id hit; source := Some s |}).
    destruct (process_config_attempt config s h eq_refl)
      as (Hr & Hsearch & Hpool & Hconn).
    rewrite Hr.
    destruct (IH (h ++ events (process_config E config) h) Hall)
      as (IHr & IHs & IHp & IHc).
    rewrite search_calls_app, pool_calls_app, connect_calls_app, map_app, length_app.
    rewrite IHr, Hsearch, Hpool, Hconn, IHs, IHp, IHc.
    unfold sources_of at 2. cbn [flat_map]. rewrite Hs.
    repeat split; reflexivity.
Qed.

Lemma process_configs_no_search configs : forall h,
  search_calls (events (process_configs E configs) h) = [].
Proof.
  apply (process_configs_ind E (fun ev => search_calls ev = [])).
  - reflexivity.
  - intros a b Ha Hb. now rewrite search_calls_app, Ha, Hb.
  - intros config h. destruct (process_config_split config h) as (tail & -> & Hsink).
    rewrite search_calls_app, (sink_no_search _ Hsink), app_nil_r.
    apply fetch_no_search, fetch_events_only_any.
Qed.

End Isolation.

(** C6.  The claim (a failure on one config leaves its sibling configs
    to be processed) fails on a hit without [_source]: the fetch of that
    config throws, the handler of the config throws in its turn while
    reading the table name, and the handler of the connection ends the
    loop.  Whatever hits follow, the search is the only call of the
    connection: no sibling config is fetched. *)
Theorem config_without_source_ends_the_connection E indexName h hit hits :
  esClient_search E h indexName = Ok (hit :: hits) ->
  hit_source hit = None ->
  events (process_index E indexName) h
  = [EvSearch indexName (Ok (hit :: hits));
     EvError ("Error processing index: " ++ indexName ++ " "
              ++ "Cannot read properties of undefined (reading 'table_name')")]
  /\ pool_calls (events (process_index E indexName) h) = []
  /\ connect_calls (events (process_index E indexName) h) = [].
Proof.
  intros Hsearch Hnone.
  assert (Hev : events (process_index E indexName) h
                = [EvSearch indexName (Ok (hit :: hits));
                   EvError ("Error processing index: " ++ indexName ++ " "
                            ++ "Cannot read properties of undefined (reading 'table_name')")]).
  { unfold process_index, fetchIndexDetails. run. rewrite Hsearch. run.
    cbn [map process_configs]. run.
    set (config := {| config_id := hit_id hit; source := hit_source hit |}).
    pose proof (fun h' => proj1 (process_config_without_source E config h' Hnone)) as Hr.
    pose proof (fun h' => proj2 (process_config_without_source E config h' Hnone)) as Hev.
    rewrite ?Hr, ?Hev. run. rewrite ?Hr, ?Hev. run. reflexivity. }
  rewrite Hev. now repeat split.
Qed.

(** The second hit of the connection has a source, and is not fetched. *)
Lemma config_without_source_ends_the_connection_witness :
  hits_read (events (lastModifiedListener env_hit_without_source) [])
  = [ {| hit_id := "cfg-0"; hit_source := None |};
      {| hit_id := "cfg-1"; hit_source := Some acme |} ]
  /\ events (process_index env_hit_without_source
               "datasource_postgresql_connection_acme") []
     = [EvSearch "datasource_postgresql_connection_acme"
          (Ok [ {| hit_id := "cfg-0"; hit_source := None |};
                {| hit_id := "cfg-1"; hit_source := Some acme |} ]);
        EvError ("Error processing index: datasource_postgresql_connection_acme "
                 ++ "Cannot read properties of undefined (reading 'table_name')")]
  /\ pool_calls (events (process_index env_hit_without_source
                           "datasource_postgresql_connection_acme") []) = []
  /\ connect_calls (events (process_index env_hit_without_source
                              "datasource_postgresql_connection_acme") []) = [].
Proof.
  split; [reflexivity|].
  apply (config_without_source_ends_the_connection env_hit_without_source
           "datasource_postgresql_connection_acme" []
           {| hit_id := "cfg-0"; hit_source := None |}
           [ {| hit_id := "cfg-1"; hit_source := Some acme |} ]); reflexivity.
Defined.

(** ** Every config with a source is attempted *)

Section Attempts.

Variable E : Env.

Lemma log_quiet logs :
  Forall (fun e => log_event e = true) logs ->
  hits_read logs = [] /\ pool_calls logs = [] /\ connect_calls logs = [].
Proof.
  intros H. unfold hits_read. rewrite (log_no_search _ H), (log_no_connect _ H).
  repeat split. now apply sink_no_pool, log_is_sink.
Qed.

Lemma process_index_attempts indexName h :
  forallb has_source (hits_read (events (process_index E indexName) h)) = true ->
  map snd (pool_calls (events (process_index E indexName) h))
  = map pool_options (sources_of (hits_read (events (process_index E indexName) h)))
  /\ List.length (connect_calls (events (process_index E indexName) h))
     = List.length (hits_read (events (process_index E indexName) h)).
Proof.
  destruct (process_index_shape E indexName h) as (logs & -> & Hlogs).
  destruct (fetchIndexDetails_run E indexName h) as (logs' & Hev & Hlogs' & Hres).
  destruct (log_quiet _ Hlogs) as (Hh & Hp & Hc).
  destruct (log_quiet _ Hlogs') as (Hh' & Hp' & Hc').
  rewrite Hev. change (EvSearch indexName (esClient_search E h indexName) :: logs')
    with ([EvSearch indexName (esClient_search E h indexName)] ++ logs').
  rewrite !hits_read_app, !pool_calls_app, !connect_calls_app, Hh, Hp, Hc, Hh', Hp', Hc'.
  destruct (esClient_search E h indexName) as [hits|e].
  - rewrite Hres.
    unfold hits_read at 2 4 6.
    rewrite (process_configs_no_search E). cbn [flat_map].
    change (hits_read [EvSearch indexName (Ok hits)]) with (hits ++ []).
    change (pool_calls [EvSearch indexName (Ok hits)]) with (@nil (nat * PoolOptions)).
    change (connect_calls [EvSearch indexName (Ok hits)])
      with (@nil (nat * Result Client)).
    rewrite !app_nil_r. cbn [app]. intros Hall.
    destruct (process_configs_attempts E hits
                (h ++ [EvSearch indexName (Ok hits)] ++ logs') Hall)
      as (_ & _ & Hpool & Hconn).
    now split.
  - destruct (result (fetchIndexDetails E indexName) h); [discriminate Hres|].
    intros _. now split.
Qed.

Lemma processIndices_attempts indices : forall h,
  forallb has_source (hits_read (events (processIndices E indices) h)) = true ->
  map snd (pool_calls (events (processIndices E indices) h))
  = map pool_options (sources_of (hits_read (events (processIndices E indices) h)))
  /\ List.length (connect_calls (events (processIndices E indices) h))
     = List.length (hits_read (events (processIndices E indices) h)).
Proof.
  induction indices as [|indexName indices IH]; intros h; cbn [processIndices]; run.
  - now split.
  - rewrite process_index_result.
    rewrite !hits_read_app, !pool_calls_app, !connect_calls_app, forallb_app,
      sources_of_app, !map_app, !length_app.
    intros Hall. apply andb_prop in Hall as (Ha & Hb).
    destruct (process_index_attempts indexName h Ha) as (-> & ->).
    destruct (IH _ Hb) as (-> & ->). now split.
Qed.

End Attempts.

(** X18.  When every hit that a cycle reads has a [_source], every one of
    them is attempted, whatever fails on the way: the cycle builds one
    pool per hit, with the connection options of the hits in the order
    read, and asks each pool once for a client. *)
Theorem every_config_with_source_is_attempted E h :
  forallb has_source (hits_read (events (lastModifiedListener E) h)) = true ->
  map snd (pool_calls (events (lastModifiedListener E) h))
  = map pool_options (sources_of (hits_read (events (lastModifiedListener E) h)))
  /\ List.length (connect_calls (events (lastModifiedListener E) h))
     = List.length (hits_read (events (lastModifiedListener E) h)).
Proof.
  pose proof (lastModifiedListener_run E h) as Hrun. cbv zeta in Hrun.
  destruct (esClient_cat_indices E (h ++ [EvLog "Fetching indices with prefix..."]))
    as [found|e]; rewrite Hrun.
  - destruct (0 <? List.length _)%nat.
    + rewrite !hits_read_app, !pool_calls_app, !connect_calls_app.
      cbn [hits_read search_calls pool_calls connect_calls flat_map app].
      apply processIndices_attempts.
    + intros _. now split.
  - intros _. now split.
Qed.

Lemma every_config_with_source_is_attempted_witness :
  map snd (pool_calls (events (lastModifiedListener env_first_source_down) []))
  = map pool_options
      (sources_of (hits_read (events (lastModifiedListener env_first_source_down) [])))
  /\ List.length (connect_calls (events (lastModifiedListener env_first_source_down) []))
     = List.length (hits_read (events (lastModifiedListener env_first_source_down) [])).
Proof.
  apply (every_config_with_source_is_attempted env_first_source_down []).
  reflexivity.
Defined.

(** ** Sessions *)

Lemma track_app st a b :
  track st (a ++ b) = match track st a with
                      | Some st' => track st' b
                      | None => None
                      end.
Proof.
  revert st. induction a as [|e a IH]; intros st; cbn; [reflexivity|].
  destruct (track_event st e); [apply IH|reflexivity].
Qed.

Lemma track_neutral st ev :
  Forall (fun e => session_neutral e = true) ev -> track st ev = Some st.
Proof.
  induction 1 as [|e ev He _ IH]; cbn; [reflexivity|].
  replace (track_event st e) with (Some st); [exact IH|].
  destruct st as [open used].
  destruct e as [| | | |pool [c|err]| | | | | | | |]; try reflexivity; discriminate He.
Qed.

Lemma sink_is_neutral ev :
  Forall (fun e => sink_event e = true) ev ->
  Forall (fun e => session_neutral e = true) ev.
Proof. apply Forall_impl. now intros []. Qed.

Lemma log_is_neutral ev :
  Forall (fun e => log_event e = true) ev ->
  Forall (fun e => session_neutral e = true) ev.
Proof. intros H. now apply sink_is_neutral, log_is_sink. Qed.

Lemma unused_below n m used :
  Forall (fun c : Client => (fst c < n)%nat) used ->
  existsb (client_eqb (n, m)) used = false.
Proof.
  induction 1 as [|c used Hc _ IH]; cbn [existsb]; [reflexivity|].
  rewrite IH, orb_false_r. unfold client_eqb. cbn [fst snd].
  replace (Nat.eqb n (fst c)) with false; [reflexivity|].
  symmetry. apply Nat.eqb_neq. lia.
Qed.

Lemma below_weaken n m (used : list Client) :
  (n <= m)%nat -> Forall (fun c => (fst c < n)%nat) used ->
  Forall (fun c => (fst c < m)%nat) used.
Proof. intros Hnm. apply Forall_impl. intros; lia. Qed.

Lemma client_eqb_refl c : client_eqb c c = true.
Proof. unfold client_eqb. now rewrite !Nat.eqb_refl. Qed.

Lemma scoped_from_neutral h ev :
  Forall (fun e => session_neutral e = true) ev -> scoped_from h ev.
Proof.
  intros Hev used Hused. exists used. split.
  - now apply track_neutral.
  - eapply below_weaken; [|exact Hused]. rewrite length_app. lia.
Qed.

Lemma scoped_from_app h a b :
  scoped_from h a -> scoped_from (h ++ a) b -> scoped_from h (a ++ b).
Proof.
  intros Ha Hb used Hused.
  destruct (Ha used Hused) as (used1 & Ht1 & Hu1).
  destruct (Hb used1 Hu1) as (used2 & Ht2 & Hu2).
  exists used2. rewrite track_app, Ht1. split; [exact Ht2|].
  now rewrite app_assoc.
Qed.

Lemma scoped_from_neutral_then h a b :
  Forall (fun e => session_neutral e = true) a ->
  scoped_from (h ++ a) b -> scoped_from h (a ++ b).
Proof. intros Ha. now apply scoped_from_app, scoped_from_neutral. Qed.

Lemma scoped_from_scoped h ev : scoped_from h ev -> scoped ev = true.
Proof.
  intros H. destruct (H [] (Forall_nil _)) as (used & Ht & _).
  unfold scoped.
  now replace (track (None, []) ev) with (Some (@None Client, used)).
Qed.

Section Sessions.

Variable E : Env.

(** On each of its paths the fetch of a config that has a source hands
    out at most one client, of the pool it has just built, queries on it
    and releases it last. *)
Lemma fetch_from_keeps_sessions config s h :
  scoped_from h (events (fetch_from E config s) h).
Proof.
  intros used Hused.
  assert (Hfresh := fun m => unused_below _ m _ Hused).
  assert (Hgrow : forall m ev, ev <> [] ->
            Forall (fun c : Client => (fst c < List.length (h ++ ev))%nat)
                   ((List.length h, m) :: used)).
  { intros m ev Hev. constructor.
    - rewrite length_app. destruct ev; [congruence|cbn; lia].
    - eapply below_weaken; [|exact Hused]. rewrite length_app. lia. }
  destruct (fetch_from_run E config s h) as [e Hc|n| n |n|n|n].
  - exists used. split; [reflexivity|].
    eapply below_weaken; [|exact Hused]. rewrite length_app. lia.
  - exists ((List.length h, n) :: used). split; [|apply Hgrow; discriminate].
    follow_sessions Hfresh.
  - exists ((List.length h, n) :: used). split; [|apply Hgrow; discriminate].
    follow_sessions Hfresh.
  - exists ((List.length h, n) :: used). split; [|apply Hgrow; discriminate].
    follow_sessions Hfresh.
  - exists ((List.length h, n) :: used). split; [|apply Hgrow; discriminate].
    follow_sessions Hfresh.
  - exists ((List.length h, n) :: used). split; [|apply Hgrow; discriminate].
    follow_sessions Hfresh.
Qed.

Lemma fetch_keeps_sessions config h :
  scoped_from h (events (fetchUpdatedRows E config) h).
Proof.
  destruct (source config) as [s|] eqn:Hs.
  - rewrite (fetch_with_source E config s Hs). apply fetch_from_keeps_sessions.
  - destruct (fetch_without_source E config h Hs) as (_ & ->).
    apply scoped_from_neutral. constructor.
Qed.

Lemma process_config_keeps_sessions config h :
  scoped_from h (events (process_config E config) h).
Proof.
  destruct (process_config_split E config h) as (tail & -> & Hsink).
  apply scoped_from_app.
  - apply fetch_keeps_sessions.
  - now apply scoped_from_neutral, sink_is_neutral.
Qed.

Lemma process_configs_keeps_sessions configs : forall h,
  scoped_from h (events (process_configs E configs) h).
Proof.
  induction configs as [|config configs IH]; intros h; cbn [process_configs]; run.
  - apply scoped_from_neutral. constructor.
  - apply scoped_from_app; [apply process_config_keeps_sessions|].
    destruct (result (process_config E config) h); [apply IH|].
    apply scoped_from_neutral. constructor.
Qed.

Lemma process_index_keeps_sessions indexName h :
  scoped_from h (events (process_index E indexName) h).
Proof.
  destruct (process_index_shape E indexName h) as (logs & -> & Hlogs).
  destruct (fetchIndexDetails_run E indexName h) as (logs' & Hev & Hlogs' & _).
  assert (Hneutral : Forall (fun e => session_neutral e = true)
                       (events (fetchIndexDetails E indexName) h)).
  { rewrite Hev. constructor; [reflexivity|now apply log_is_neutral]. }
  apply scoped_from_app; [now apply scoped_from_neutral|].
  apply scoped_from_app; [|now apply scoped_from_neutral, log_is_neutral].
  destruct (result (fetchIndexDetails E indexName) h) as [configs|e].
  - apply process_configs_keeps_sessions.
  - apply scoped_from_neutral. constructor.
Qed.

Lemma processIndices_keeps_sessions indices : forall h,
  scoped_from h (events (processIndices E indices) h).
Proof.
  induction indices as [|indexName indices IH]; intros h; cbn [processIndices]; run.
  - apply scoped_from_neutral. constructor.
  - rewrite process_index_result.
    apply scoped_from_app; [apply process_index_keeps_sessions|apply IH].
Qed.

Lemma lastModifiedListener_keeps_sessions h :
  scoped_from h (events (lastModifiedListener E) h).
Proof.
  pose proof (lastModifiedListener_run E h) as Hrun. cbv zeta in Hrun.
  destruct (esClient_cat_indices E (h ++ [EvLog "Fetching indices with prefix..."]))
    as [found|e]; rewrite Hrun.
  - apply scoped_from_neutral_then; [repeat constructor|].
    destruct (0 <? List.length _)%nat.
    + apply processIndices_keeps_sessions.
    + apply scoped_from_neutral. repeat constructor.
  - apply scoped_from_neutral. repeat constructor.
Qed.

(** The fetch of a config that has a source builds a pool and asks it
    for a client.  When the pool hands none out, that is all the fetch
    does.  When it hands one out, the fetch queries on it once, and,
    whatever the query and the checkpoint write do, releases it with its
    last event. *)
Lemma fetch_acquires_and_releases config s h :
  source config = Some s ->
  match handed_out E s h with
  | Throw e =>
      events (fetchUpdatedRows E config) h
      = [EvNewPool (List.length h) (pool_options s);
         EvConnect (List.length h) (Throw e)]
      /\ result (fetchUpdatedRows E config) h = Throw e
  | Ok n =>
      exists rest,
        events (fetchUpdatedRows E config) h
        = opened s h n
          ++ [EvQuery (List.length h, n)
                (changelog_query (field_name s) (table_name s))
                (lastIndexedTime E s) (delivered E s h n)]
          ++ rest ++ [EvRelease (List.length h, n)]
        /\ Forall (fun e => checkpoint_event e = true) rest
  end.
Proof.
  intros Hs. rewrite (fetch_with_source E config s Hs).
  destruct (fetch_from_run E config s h)
    as [e Hc|n e Hc Hq|n Hc Hq|n rows lastRow e Hc Hq|n rows lastRow lowered w Hc Hq
        |n rows lastRow lowered e Hc Hq];
    rewrite Hc; [now split|..]; rewrite Hq.
  - exists [EvError ("Error fetching updated rows from PostgreSQL: " ++ message e)].
    split; [reflexivity|repeat constructor].
  - exists []. split; [reflexivity|constructor].
  - eexists [_; _]. split; [reflexivity|repeat constructor].
  - eexists [_; _; _]. split; [reflexivity|repeat constructor].
  - eexists [_; _; _; _]. split; [reflexivity|repeat constructor].
Qed.

Lemma fetch_no_pool_end ev :
  Forall (fun e => fetch_event e = true) ev -> pools_ended ev = [].
Proof. apply flat_map_silent. now intros []. Qed.

Lemma sink_no_pool_end ev :
  Forall (fun e => sink_event e = true) ev -> pools_ended ev = [].
Proof. apply flat_map_silent. now intros []. Qed.

(** No pool is ever ended: a released client goes back to its pool. *)
Lemma lastModifiedListener_ends_no_pool h :
  pools_ended (events (lastModifiedListener E) h) = [].
Proof.
  apply (lastModifiedListener_ind E (fun ev => pools_ended ev = [])).
  - reflexivity.
  - intros a b Ha Hb. unfold pools_ended in *. now rewrite flat_map_app, Ha, Hb.
  - now intros [].
  - intros config h'. destruct (process_config_split E config h') as (tail & -> & Hsink).
    unfold pools_ended. rewrite flat_map_app.
    fold (pools_ended tail). rewrite (sink_no_pool_end _ Hsink), app_nil_r.
    apply fetch_no_pool_end, fetch_events_only_any.
Qed.

End Sessions.

(** C9.  Every fetch of a config that has a source builds a pool of its
    own and asks it for a client.  When the pool hands one out, the fetch
    runs its one query on that client and releases it with its last
    event, on every path: whatever the query answers or throws, and
    whatever the checkpoint write does.  When the pool hands none out,
    the fetch throws and there is nothing to release; the fetch of a
    config without source throws before it builds a pool.  Over a whole
    cycle the clients stay scoped: a client is handed out only when none
    is checked out, it is a client of a pool built for that fetch and so
    was never handed out before, it is queried only while checked out,
    and none is checked out at the end.  The pools themselves are never
    ended: a release gives the client back to its pool. *)
Theorem sessions_are_scoped E h :
  (forall config s,
     source config = Some s ->
     match handed_out E s h with
     | Throw e =>
         events (fetchUpdatedRows E config) h
         = [EvNewPool (List.length h) (pool_options s);
            EvConnect (List.length h) (Throw e)]
         /\ result (fetchUpdatedRows E config) h = Throw e
     | Ok n =>
         exists rest,
           events (fetchUpdatedRows E config) h
           = opened s h n
             ++ [EvQuery (List.length h, n)
                   (changelog_query (field_name s) (table_name s))
                   (lastIndexedTime E s) (delivered E s h n)]
             ++ rest ++ [EvRelease (List.length h, n)]
           /\ Forall (fun e => checkpoint_event e = true) rest
     end)
  /\ (forall config,
        source config = None -> events (fetchUpdatedRows E config) h = [])
  /\ scoped (events (lastModifiedListener E) h) = true
  /\ pools_ended (events (lastModifiedListener E) h) = [].
Proof.
  split; [|split; [|split]].
  - intros config s. apply fetch_acquires_and_releases.
  - intros config Hnone. apply (fetch_without_source E config h Hnone).
  - apply (scoped_from_scoped h), lastModifiedListener_keeps_sessions.
  - apply lastModifiedListener_ends_no_pool.
Qed.

(** A fetch whose checkpoint write is refused: the client is released
    all the same. *)
Lemma sessions_are_scoped_witness :
  source acme_config = Some acme
  /\ exists rest,
       events (fetchUpdatedRows env_write_fails acme_config) []
       = opened acme [] 0
         ++ [EvQuery (0%nat, 0%nat)
               (changelog_query (field_name acme) (table_name acme))
               (lastIndexedTime env_write_fails acme)
               (delivered env_write_fails acme [] 0)]
         ++ rest ++ [EvRelease (0%nat, 0%nat)]
       /\ Forall (fun e => checkpoint_event e = true) rest.
Proof.
  split; [reflexivity|].
  exact (proj1 (sessions_are_scoped env_write_fails []) acme_config acme eq_refl).
Defined.

(** ** Runs *)

(** The scenario of the specification: a checkpoint of 1 January, two
    rows of 2 and 3 January, an INSERT and an UPDATE. *)
Example two_rows_cycle :
  let ev := events (lastModifiedListener env_two_rows) [] in
  query_calls ev
  = [((3%nat, 0%nat),
      "
            SELECT row_id, change_time, new_value AS body, action_type
            FROM articles_changelog
            WHERE change_time > $1
            ORDER BY change_time ASC
        "%string,
      TimeValue 1704067200000, Ok [row_insert; row_update])]
  /\ pool_calls ev = [(3%nat, pool_options acme)]
  /\ update_calls ev
     = [("datasource_postgresql_connection_acme"%string, "cfg-1"%string,
         "2024-01-03T00:00:00.000Z"%string, Ok tt)]
  /\ post_calls ev
     = [("tenant_acme"%string,
         [ {| doc_search_action := "upload"; doc_id := "7";
              doc_title := "Default Title for Row 7";
              doc_content := JStr "first";
              doc_description := "Default Description for Row 7";
              doc_image := JNull; doc_category := "news" |};
           {| doc_search_action := "mergeOrUpload"; doc_id := "8";
              doc_title := "Default Title for Row 8";
              doc_content := JStr "second";
              doc_description := "Default Description for Row 8";
              doc_image := JNull; doc_category := "news" |} ],
         Ok tt)].
Proof. repeat split. Qed.

(** A DELETE is published as "mergeOrUpload" like any action that is not
    an INSERT. *)
Example delete_is_merged :
  doc_search_action (document_of row_delete (JStr "gone") "news") = "mergeOrUpload"%string.
Proof. reflexivity. Qed.

(** A row with an empty content is left out of the batch, and the
    watermark advances to its change time all the same. *)
Example dropped_row_cycle :
  let ev := events (lastModifiedListener env_dropped_row) [] in
  map (fun call => snd (fst call)) (update_calls ev) = ["2024-01-04T00:00:00.000Z"%string]
  /\ map fst (post_calls ev)
     = [("tenant_acme"%string, [document_of row_insert (JStr "first") "news"])].
Proof. repeat split. Qed.

(** The source of the first config is down: its fetch throws, and the
    second config is fetched, transformed and published; of its three
    rows, the one whose processing throws and the one with an empty
    content are left out. *)
Example first_source_down_cycle :
  let ev := events (lastModifiedListener env_first_source_down) [] in
  pool_calls ev = [(3%nat, pool_options acme_down); (6%nat, pool_options acme)]
  /\ connect_calls ev = [(3%nat, unreachable); (6%nat, Ok (6%nat, 0%nat))]
  /\ map (fun call => is_ok (snd call)) (process_calls ev)
     = [false; true; true]
  /\ map fst (post_calls ev)
     = [("tenant_acme"%string, [document_of row_insert (JStr "first") "news"])]
  /\ scoped ev = true.
Proof. repeat split. Qed.

(** The source stores change times to the microsecond and the driver
    hands them over in milliseconds: a row stored 250 microseconds after
    a whole millisecond is selected again by a query whose cursor is the
    change time it was delivered with. *)
Example row_between_milliseconds_is_selected_again :
  changelog_answer [stored_update] (change_time row_update) = [row_update]
  /\ changelog_answer [stored_insert] (change_time row_insert) = [].
Proof. split; reflexivity. Qed.

(** ** What a failing fetch leaves behind *)

Lemma release_calls_app a b : release_calls (a ++ b) = release_calls a ++ release_calls b.
Proof. apply flat_map_app. Qed.

Section FailingFetch.

Variable E : Env.
Variable config : Config.
Variable s : Source.
Variable h : History.
Hypothesis has_source : source config = Some s.

(** When the fetch of a config that has a source throws, the config is
    logged and left. *)
Lemma process_config_after_throw e :
  result (fetchUpdatedRows E config) h = Throw e ->
  events (process_config E config) h
  = events (fetchUpdatedRows E config) h
    ++ [EvError ("Error processing table: " ++ table_name s
                 ++ ", field: " ++ field_name s ++ " " ++ message e)].
Proof.
  intros Hr. unfold process_config. rewrite has_source. run. rewrite Hr. run.
  now rewrite app_nil_r.
Qed.

End FailingFetch.

(** X1.  On a config that has a source, a fetch that throws ends the
    config for the cycle: the error is logged with the table and the
    field, nothing is transformed and nothing is published, and the loop
    goes on. *)
Theorem failed_fetch_publishes_nothing E config s h e :
  source config = Some s ->
  result (fetchUpdatedRows E config) h = Throw e ->
  result (process_config E config) h = Ok tt
  /\ events (process_config E config) h
     = events (fetchUpdatedRows E config) h
       ++ [EvError ("Error processing table: " ++ table_name s
                    ++ ", field: " ++ field_name s ++ " " ++ message e)]
  /\ process_calls (events (process_config E config) h) = []
  /\ post_calls (events (process_config E config) h) = [].
Proof.
  intros Hs Hr. pose proof (process_config_after_throw E config s h Hs e Hr) as Hev.
  pose proof (fetch_events_only E config s Hs h) as Hfetch.
  split; [apply (process_config_run E config s Hs h)|]. split; [exact Hev|].
  rewrite Hev, process_calls_app, post_calls_app.
  now rewrite (fetch_no_process _ Hfetch), (fetch_no_post _ Hfetch).
Qed.

Lemma failed_fetch_publishes_nothing_witness :
  source acme_config = Some acme
  /\ result (fetchUpdatedRows env_query_fails acme_config) [] = unreachable
  /\ result (process_config env_query_fails acme_config) [] = Ok tt
  /\ events (process_config env_query_fails acme_config) []
     = events (fetchUpdatedRows env_query_fails acme_config) []
       ++ [EvError "Error processing table: articles, field: body ECONNREFUSED"]
  /\ process_calls (events (process_config env_query_fails acme_config) []) = []
  /\ post_calls (events (process_config env_query_fails acme_config) []) = [].
Proof.
  split; [reflexivity|]. split; [reflexivity|].
  apply (failed_fetch_publishes_nothing env_query_fails acme_config acme []
           {| message := "ECONNREFUSED" |}); reflexivity.
Defined.

(** X2.  When the change-log query fails, the fetch throws the error of
    the query itself, unchanged; no checkpoint is written and the client
    is released. *)
Theorem query_failure_is_rethrown E config s h n e :
  source config = Some s ->
  handed_out E s h = Ok n ->
  delivered E s h n = Throw e ->
  result (fetchUpdatedRows E config) h = Throw e
  /\ update_calls (events (fetchUpdatedRows E config) h) = []
  /\ release_calls (events (fetchUpdatedRows E config) h) = [(List.length h, n)].
Proof.
  intros Hs Hc Hq. rewrite (fetch_with_source E config s Hs).
  destruct (fetch_from_run E config s h)
    as [e' Hc'|n' e' Hc' Hq'|n' Hc' Hq'|n' rows lastRow e' Hc' Hq' _
        |n' rows lastRow lowered w Hc' Hq' _ _|n' rows lastRow lowered e' Hc' Hq' _ _];
    try congruence;
    replace n' with n in * by congruence; try congruence.
  replace e' with e by congruence. repeat split.
Qed.

Lemma query_failure_is_rethrown_witness :
  source acme_config = Some acme
  /\ handed_out env_query_fails acme [] = Ok 0%nat
  /\ delivered env_query_fails acme [] 0 = unreachable
  /\ result (fetchUpdatedRows env_query_fails acme_config) [] = unreachable
  /\ update_calls (events (fetchUpdatedRows env_query_fails acme_config) []) = []
  /\ release_calls (events (fetchUpdatedRows env_query_fails acme_config) [])
     = [(0%nat, 0%nat)].
Proof.
  split; [reflexivity|]. split; [reflexivity|]. split; [reflexivity|].
  apply (query_failure_is_rethrown env_query_fails acme_config acme [] 0
           {| message := "ECONNREFUSED" |}); reflexivity.
Defined.

(** X3.  When the pool cannot connect, the fetch throws the error of the
    connection, and the pool and the attempt are its only events: no
    query, no checkpoint write, and no release, there being no client. *)
Theorem connect_failure_is_thrown E config s h e :
  source config = Some s ->
  handed_out E s h = Throw e ->
  result (fetchUpdatedRows E config) h = Throw e
  /\ events (fetchUpdatedRows E config) h
     = [EvNewPool (List.length h) (pool_options s);
        EvConnect (List.length h) (Throw e)].
Proof.
  intros Hs Hc. rewrite (fetch_with_source E config s Hs).
  destruct (fetch_from_run E config s h) as [e' Hc'| | | | |]; try congruence.
  replace e' with e by congruence. now split.
Qed.

Lemma connect_failure_is_thrown_witness :
  handed_out env_first_source_down acme_down [] = unreachable
  /\ result (fetchUpdatedRows env_first_source_down
               {| config_id := "cfg-0"; source := Some acme_down |}) [] = unreachable
  /\ events (fetchUpdatedRows env_first_source_down
               {| config_id := "cfg-0"; source := Some acme_down |}) []
     = [EvNewPool 0 (pool_options acme_down); EvConnect 0 unreachable].
Proof.
  split; [reflexivity|].
  apply (connect_failure_is_thrown env_first_source_down
           {| config_id := "cfg-0"; source := Some acme_down |} acme_down []
           {| message := "ECONNREFUSED" |}); reflexivity.
Defined.

(** X4.  When the metadata store refuses the checkpoint write, the fetch
    throws "Failed to update updatedAt in Elasticsearch" in place of the
    store's error, the client is released, and the rows the query
    delivered are neither transformed nor published in this cycle. *)
Theorem refused_checkpoint_blocks_publish E config s c h n front lastRow e :
  source config = Some s ->
  coid s = JStr c ->
  handed_out E s h = Ok n ->
  delivered E s h n = Ok (front ++ [lastRow]) ->
  written E config s h n (front ++ [lastRow]) (change_time lastRow)
    (connections_prefix ++ toLowerCase E c) = Throw e ->
  result (fetchUpdatedRows E config) h
  = Throw {| message := "Failed to update updatedAt in Elasticsearch" |}
  /\ update_calls (events (fetchUpdatedRows E config) h)
     = [((connections_prefix ++ toLowerCase E c)%string,
         config_id config, toISOString (change_time lastRow), Throw e)]
  /\ release_calls (events (fetchUpdatedRows E config) h) = [(List.length h, n)]
  /\ process_calls (events (process_config E config) h) = []
  /\ post_calls (events (process_config E config) h) = [].
Proof.
  intros Hs Hcoid Hc Hq Hw.
  assert (Hl : lowered_coid (toLowerCase E) s = Ok (toLowerCase E c)).
  { unfold lowered_coid. now rewrite Hcoid. }
  assert (Hfetch : result (fetchUpdatedRows E config) h
                   = Throw {| message := "Failed to update updatedAt in Elasticsearch" |}
                   /\ update_calls (events (fetchUpdatedRows E config) h)
                      = [((connections_prefix ++ toLowerCase E c)%string,
                          config_id config, toISOString (change_time lastRow), Throw e)]
                   /\ release_calls (events (fetchUpdatedRows E config) h)
                      = [(List.length h, n)]).
  { rewrite (fetch_with_source E config s Hs).
    destruct (fetch_from_run E config s h)
      as [e' Hc'|n' e' Hc' Hq'|n' Hc' Hq'|n' rows lastRow' e' Hc' Hq' Hl'
          |n' rows lastRow' lowered w Hc' Hq' Hl' Hw'
          |n' rows lastRow' lowered e' Hc' Hq' Hl' Hw'];
      try congruence;
      replace n' with n in * by congruence; try congruence.
    - destruct front; rewrite Hq in Hq'; discriminate Hq'.
    - rewrite Hq in Hq'. injection Hq' as Hrows.
      apply app_inj_tail in Hrows as [-> ->].
      replace lowered with (toLowerCase E c) in * by congruence. congruence.
    - rewrite Hq in Hq'. injection Hq' as Hrows.
      apply app_inj_tail in Hrows as [-> ->].
      replace lowered with (toLowerCase E c) in * by congruence.
      replace e' with e by congruence. repeat split. }
  destruct Hfetch as (Hr & Hu & Hrel).
  split; [exact Hr|]. split; [exact Hu|]. split; [exact Hrel|].
  pose proof (process_config_after_throw E config s h Hs _ Hr) as Hev.
  pose proof (fetch_events_only E config s Hs h) as Honly.
  rewrite Hev, process_calls_app, post_calls_app.
  now rewrite (fetch_no_process _ Honly), (fetch_no_post _ Honly).
Qed.

Lemma refused_checkpoint_blocks_publish_witness :
  delivered env_write_fails acme [] 0 = Ok ([row_insert] ++ [row_update])
  /\ written env_write_fails acme_config acme [] 0 ([row_insert] ++ [row_update])
       (change_time row_update) "datasource_postgresql_connection_acme" = unreachable
  /\ result (fetchUpdatedRows env_write_fails acme_config) []
     = Throw {| message := "Failed to update updatedAt in Elasticsearch" |}
  /\ update_calls (events (fetchUpdatedRows env_write_fails acme_config) [])
     = [("datasource_postgresql_connection_acme"%string, "cfg-1"%string,
         "2024-01-03T00:00:00.000Z"%string, unreachable)]
  /\ release_calls (events (fetchUpdatedRows env_write_fails acme_config) [])
     = [(0%nat, 0%nat)]
  /\ process_calls (events (process_config env_write_fails acme_config) []) = []
  /\ post_calls (events (process_config env_write_fails acme_config) []) = [].
Proof.
  split; [reflexivity|]. split; [reflexivity|].
  apply (refused_checkpoint_blocks_publish env_write_fails acme_config acme "ACME" [] 0
           [row_insert] row_update {| message := "ECONNREFUSED" |}); reflexivity.
Defined.
(** ** Invariants of a whole cycle *)

(** The calls of one config, counted. *)
Lemma process_config_counts E config h :
  let ev := events (process_config E config) h in
  List.length (pool_calls ev) = match source config with Some _ => 1%nat | None => 0%nat end
  /\ List.length (connect_calls ev) = match source config with Some _ => 1%nat | None => 0%nat end
  /\ (List.length (query_calls ev) <= 1)%nat
  /\ (List.length (update_calls ev) <= List.length (nonempty_deliveries ev))%nat
  /\ (List.length (update_calls ev) <= 1)%nat
  /\ (List.length (post_calls ev) <= List.length (successful_writes ev))%nat
  /\ (List.length (post_calls ev) <= 1)%nat.
Proof.
  cbv zeta. unfold nonempty_deliveries, successful_writes.
  destruct (source config) as [s|] eqn:Hs;
    [|destruct (process_config_without_source E config h Hs) as (_ & ->);
      cbn; repeat split; lia].
  destruct (process_config_run E config s Hs h) as (_ & tail & Htail & Hshape).
  destruct (process_config_split E config h) as (tail' & Htail' & Hsink).
  rewrite Htail in Htail'. apply app_inv_head in Htail'. subst tail'.
  pose proof (fetch_events_only E config s Hs h) as Hfetch.
  rewrite Htail, pool_calls_app, connect_calls_app, query_calls_app, update_calls_app,
    post_calls_app.
  rewrite (sink_no_pool _ Hsink), (sink_no_connect _ Hsink), (sink_no_query _ Hsink),
    (sink_no_update _ Hsink), !app_nil_r, (fetch_no_post _ Hfetch).
  cbn [app].
  assert (Hposts : (List.length (post_calls tail) <= 1)%nat
                   /\ match result (fetchUpdatedRows E config) h with
                      | Ok (_ :: _) => True
                      | _ => post_calls tail = []
                      end).
  { destruct (result (fetchUpdatedRows E config) h) as [[|row rows]|e].
    - subst tail. split; [cbn; lia|reflexivity].
    - split; [|exact I].
      destruct (lowered_coid (toLowerCase E) s) as [lowered|e].
      + destruct Hshape as (logs & -> & Hlogs).
        rewrite post_calls_app, (transform_no_post _ (log_is_transform _ Hlogs)),
          app_nil_r.
        destruct (processAndIndexData_run E (row :: rows) (field_name s) (field_type s)
                    (category s) ("tenant_" ++ lowered)%string
                    (h ++ events (fetchUpdatedRows E config) h)) as (_ & _ & Hp & _).
        rewrite <- (length_map fst), Hp.
        destruct (documents_for _ _ _); cbn; lia.
      + rewrite (transform_no_post _ (log_is_transform _ Hshape)). cbn; lia.
    - rewrite (transform_no_post _ (log_is_transform _ Hshape)).
      split; [cbn; lia|reflexivity]. }
  destruct Hposts as (Hle & Hnone). clear Hshape Htail Hsink Hfetch.
  rewrite (fetch_with_source E config s Hs) in *.
  destruct (fetch_from_run E config s h)
    as [e Hc|n e Hc Hq|n Hc Hq|n rows lastRow e Hc Hq Hl
        |n rows lastRow lowered w Hc Hq Hl Hw|n rows lastRow lowered e Hc Hq Hl Hw];
    cbn in Hnone; try rewrite Hnone; cbn; repeat split; try lia;
    destruct rows; cbn; lia.
Qed.

(** X5.  No retries: for one config a cycle builds one pool and makes
    one attempt to connect when the config has a source, and none when
    it has not; it makes at most one query, at most one checkpoint write
    and at most one publish request, whatever fails. *)
Theorem one_attempt_per_config E config h :
  let ev := events (process_config E config) h in
  List.length (pool_calls ev) = match source config with Some _ => 1%nat | None => 0%nat end
  /\ List.length (connect_calls ev) = match source config with Some _ => 1%nat | None => 0%nat end
  /\ (List.length (query_calls ev) <= 1)%nat
  /\ (List.length (update_calls ev) <= 1)%nat
  /\ (List.length (post_calls ev) <= 1)%nat.
Proof.
  destruct (process_config_counts E config h) as (Hn & Hc & Hq & _ & Hu & _ & Hp). auto.
Qed.

Lemma nonempty_deliveries_app a b :
  nonempty_deliveries (a ++ b) = nonempty_deliveries a ++ nonempty_deliveries b.
Proof. unfold nonempty_deliveries. now rewrite query_calls_app, filter_app. Qed.

Lemma successful_writes_app a b :
  successful_writes (a ++ b) = successful_writes a ++ successful_writes b.
Proof. unfold successful_writes. now rewrite update_calls_app, filter_app. Qed.

(** X6.  Over a whole cycle there are no more checkpoint writes than
    queries that delivered at least one row, and no more publish requests
    than checkpoint writes the metadata store accepted. *)
Theorem writes_match_deliveries E h :
  let ev := events (lastModifiedListener E) h in
  (List.length (update_calls ev) <= List.length (nonempty_deliveries ev))%nat
  /\ (List.length (post_calls ev) <= List.length (successful_writes ev))%nat.
Proof.
  apply (lastModifiedListener_ind E
           (fun ev => (List.length (update_calls ev)
                       <= List.length (nonempty_deliveries ev))%nat
                      /\ (List.length (post_calls ev)
                          <= List.length (successful_writes ev))%nat)).
  - split; cbn; lia.
  - intros a b (Ha1 & Ha2) (Hb1 & Hb2).
    rewrite update_calls_app, nonempty_deliveries_app, post_calls_app,
      successful_writes_app, !length_app. lia.
  - intros [] He; try discriminate He; split; cbn; lia.
  - intros config h'. destruct (process_config_counts E config h')
      as (_ & _ & _ & Hu & _ & Hp & _). auto.
Qed.

Lemma quiet_app a b :
  forallb quiet (query_calls (a ++ b))
  = forallb quiet (query_calls a) && forallb quiet (query_calls b).
Proof. now rewrite query_calls_app, forallb_app. Qed.

(** A config whose query delivered nothing writes, transforms and
    publishes nothing. *)
Lemma quiet_config E config h :
  let ev := events (process_config E config) h in
  forallb quiet (query_calls ev) = true ->
  update_calls ev = [] /\ process_calls ev = [] /\ post_calls ev = [].
Proof.
  cbv zeta. intros Hquiet.
  destruct (source config) as [s|] eqn:Hs;
    [|destruct (process_config_without_source E config h Hs) as (_ & ->); auto].
  destruct (process_config_run E config s Hs h) as (_ & tail & Htail & Hshape).
  pose proof (fetch_events_only E config s Hs h) as Hfetch.
  rewrite Htail in *. rewrite quiet_app in Hquiet.
  apply andb_prop in Hquiet as (Hquiet & _).
  rewrite update_calls_app, process_calls_app, post_calls_app.
  rewrite (fetch_no_process _ Hfetch), (fetch_no_post _ Hfetch). cbn [app].
  assert (Htail_nil : update_calls (events (fetchUpdatedRows E config) h) = []
                      /\ (tail = [] \/ Forall (fun e => log_event e = true) tail)).
  { clear Htail Hfetch. rewrite (fetch_with_source E config s Hs) in *.
    destruct (fetch_from_run E config s h)
      as [e Hc|n e Hc Hq|n Hc Hq|n rows lastRow e Hc Hq Hl
          |n rows lastRow lowered w Hc Hq Hl Hw|n rows lastRow lowered e Hc Hq Hl Hw];
      try (split; [reflexivity|auto]; fail);
      exfalso; cbn in Hquiet; unfold quiet, delivered_rows in Hquiet; cbn in Hquiet;
      destruct rows; discriminate Hquiet. }
  destruct Htail_nil as (Hu & [->|Hlogs]).
  - rewrite Hu. auto.
  - rewrite Hu, (sink_no_update _ (log_is_sink _ Hlogs)), (log_no_process _ Hlogs),
      (transform_no_post _ (log_is_transform _ Hlogs)). auto.
Qed.

(** X7.  A cycle in which no query delivered a row (each delivered none,
    or failed) writes no checkpoint, processes no content and sends
    nothing to the sink: running the poller with no new source data
    changes nothing. *)
Theorem quiet_cycle_changes_nothing E h :
  forallb quiet (query_calls (events (lastModifiedListener E) h)) = true ->
  update_calls (events (lastModifiedListener E) h) = []
  /\ process_calls (events (lastModifiedListener E) h) = []
  /\ post_calls (events (lastModifiedListener E) h) = [].
Proof.
  apply (lastModifiedListener_ind E
           (fun ev => forallb quiet (query_calls ev) = true ->
                      update_calls ev = [] /\ process_calls ev = []
                      /\ post_calls ev = [])).
  - auto.
  - intros a b Ha Hb Hquiet. rewrite quiet_app in Hquiet.
    apply andb_prop in Hquiet as (Hqa & Hqb).
    destruct (Ha Hqa) as (Hua & Hpa & Hsa). destruct (Hb Hqb) as (Hub & Hpb & Hsb).
    now rewrite update_calls_app, process_calls_app, post_calls_app,
      Hua, Hub, Hpa, Hpb, Hsa, Hsb.
  - intros [] He; try discriminate He; auto.
  - intros config h'. apply quiet_config.
Qed.

Lemma quiet_cycle_changes_nothing_witness :
  forallb quiet (query_calls (events (lastModifiedListener env_no_rows) [])) = true
  /\ update_calls (events (lastModifiedListener env_no_rows) []) = []
  /\ process_calls (events (lastModifiedListener env_no_rows) []) = []
  /\ post_calls (events (lastModifiedListener env_no_rows) []) = [].
Proof.
  split; [reflexivity|].
  apply (quiet_cycle_changes_nothing env_no_rows []). reflexivity.
Defined.

(** ** Which indices a cycle reads and writes *)

Lemma process_index_searches E indexName h :
  map fst (search_calls (events (process_index E indexName) h)) = [indexName].
Proof.
  destruct (process_index_shape E indexName h) as (logs & -> & Hlogs).
  destruct (fetchIndexDetails_run E indexName h) as (logs' & Hev & Hlogs' & _).
  rewrite Hev, !search_calls_app, (log_no_search _ Hlogs), app_nil_r.
  change (EvSearch indexName (esClient_search E h indexName) :: logs')
    with ([EvSearch indexName (esClient_search E h indexName)] ++ logs').
  rewrite search_calls_app, (log_no_search _ Hlogs'), app_nil_r.
  destruct (result (fetchIndexDetails E indexName) h) as [configs|e].
  - now rewrite (process_configs_no_search E), app_nil_r.
  - reflexivity.
Qed.

Lemma processIndices_searches E indices : forall h,
  map fst (search_calls (events (processIndices E indices) h)) = indices.
Proof.
  induction indices as [|indexName indices IH]; intros h; cbn [processIndices]; run.
  - reflexivity.
  - now rewrite process_index_result, search_calls_app, map_app, IH,
      process_index_searches.
Qed.

(** X8.  A cycle reads the configs of exactly the indices of the catalog
    whose names start with "datasource_postgresql_connection_", in the
    order of the catalog; when the catalog cannot be listed it reads
    none. *)
Theorem only_connection_indices_are_searched E h :
  let ev := events (lastModifiedListener E) h in
  match esClient_cat_indices E (h ++ [EvLog "Fetching indices with prefix..."]) with
  | Ok found =>
      map fst (search_calls ev)
      = map index (filter (fun i => startsWith (index i) connections_prefix) found)
  | Throw _ => search_calls ev = [] /\ connect_calls ev = []
  end.
Proof.
  pose proof (lastModifiedListener_run E h) as Hrun. cbv zeta in *.
  destruct (esClient_cat_indices E (h ++ [EvLog "Fetching indices with prefix..."]))
    as [found|e]; rewrite Hrun.
  - rewrite search_calls_app. cbn [search_calls flat_map app map].
    destruct (map index _) as [|name names] eqn:Hnames; [reflexivity|].
    replace (0 <? List.length (name :: names))%nat with true by reflexivity.
    apply processIndices_searches.
  - now split.
Qed.

(** X9.  When the configs of a connection cannot be read, the connection
    is left for the cycle: the search is its only call, and the failure
    is logged, for the connection under the message "Failed to fetch
    index details from Elasticsearch". *)
Theorem unreadable_connection_is_skipped E indexName h e :
  esClient_search E h indexName = Throw e ->
  events (process_index E indexName) h
  = [EvSearch indexName (Throw e);
     EvError ("Error fetching details from index " ++ indexName ++ ": " ++ message e);
     EvError ("Error processing index: " ++ indexName ++ " "
              ++ "Failed to fetch index details from Elasticsearch")].
Proof.
  intros Hs. unfold process_index, fetchIndexDetails. run. rewrite Hs. run.
  reflexivity.
Qed.

Lemma unreadable_connection_is_skipped_witness :
  esClient_search env_search_fails [] "datasource_postgresql_connection_acme" = unreachable
  /\ events (process_index env_search_fails "datasource_postgresql_connection_acme") []
     = [EvSearch "datasource_postgresql_connection_acme" unreachable;
        EvError "Error fetching details from index datasource_postgresql_connection_acme: ECONNREFUSED";
        EvError "Error processing index: datasource_postgresql_connection_acme Failed to fetch index details from Elasticsearch"].
Proof.
  split; [reflexivity|].
  apply (unreadable_connection_is_skipped env_search_fails
           "datasource_postgresql_connection_acme" [] {| message := "ECONNREFUSED" |}).
  reflexivity.
Defined.

Lemma targets_among_nil E hits : targets_among E hits [].
Proof. split; intros call []. Qed.

Lemma targets_among_app E hits a b :
  targets_among E hits a -> targets_among E hits b -> targets_among E hits (a ++ b).
Proof.
  intros (Hua & Hpa) (Hub & Hpb). split; intros call Hin.
  - rewrite update_calls_app in Hin. apply in_app_or in Hin as [Hin|Hin]; auto.
  - rewrite post_calls_app in Hin. apply in_app_or in Hin as [Hin|Hin]; auto.
Qed.

Lemma targets_among_incl E hits hits' ev :
  incl hits hits' -> targets_among E hits ev -> targets_among E hits' ev.
Proof.
  intros Hincl (Hu & Hp). split; intros call Hin.
  - destruct (Hu call Hin) as (hit & s & c & Hhit & Heq). exists hit, s, c. auto.
  - destruct (Hp call Hin) as (hit & s & c & Hhit & Heq). exists hit, s, c. auto.
Qed.

Lemma targets_among_sink E hits ev :
  Forall (fun e => log_event e = true) ev -> targets_among E hits ev.
Proof.
  intros Hlogs. split; intros call Hin.
  - now rewrite (sink_no_update _ (log_is_sink _ Hlogs)) in Hin.
  - now rewrite (transform_no_post _ (log_is_transform _ Hlogs)) in Hin.
Qed.

Lemma targets_among_glue E hits ev :
  Forall (fun e => glue_event e = true) ev -> targets_among E hits ev.
Proof.
  intros Hglue. split; intros call Hin.
  - replace (update_calls ev) with (@nil (string * string * string * Result unit)) in Hin;
      [destruct Hin|].
    symmetry. revert Hglue. apply flat_map_silent. now intros [].
  - replace (post_calls ev) with (@nil (string * list Doc * Result unit)) in Hin;
      [destruct Hin|].
    symmetry. revert Hglue. apply flat_map_silent. now intros [].
Qed.

Section Targets.

Variable E : Env.

(** The checkpoint write of a fetch goes to the document of its config. *)
Lemma fetch_from_targets config s h call :
  In call (update_calls (events (fetch_from E config s) h)) ->
  exists c, coid s = JStr c
    /\ fst (fst (fst call)) = (connections_prefix ++ toLowerCase E c)%string
    /\ snd (fst (fst call)) = config_id config.
Proof.
  intros Hin.
  destruct (fetch_from_run E config s h)
    as [e Hc|n e Hc Hq|n Hc Hq|n rows lastRow e Hc Hq Hl
        |n rows lastRow lowered w Hc Hq Hl Hw|n rows lastRow lowered e Hc Hq Hl Hw];
    cbn in Hin; try (destruct Hin; fail); destruct Hin as [<-|[]];
    destruct (lowered_coid_ok _ _ _ Hl) as (c & Hcoid & ->); exists c; auto.
Qed.

(** The writes and the publish of one config. *)
Lemma process_config_targets hit h :
  targets_among E [hit]
    (events (process_config E {| config_id := hit_id hit; source := hit_source hit |}) h).
Proof.
  set (config := {| config_id := hit_id hit; source := hit_source hit |}).
  assert (Hsrc : source config = hit_source hit) by reflexivity.
  destruct (hit_source hit) as [s|] eqn:Hs;
    [|destruct (process_config_without_source E config h Hsrc) as (_ & ->);
      apply targets_among_nil].
  destruct (process_config_run E config s Hsrc h) as (_ & tail & Htail & Hshape).
  destruct (process_config_split E config h) as (tail' & Htail' & Hsink).
  rewrite Htail in Htail'. apply app_inv_head in Htail'. subst tail'.
  pose proof (fetch_events_only E config s Hsrc h) as Hfetch.
  rewrite Htail. split; intros call Hin.
  - rewrite update_calls_app, (sink_no_update _ Hsink), app_nil_r in Hin.
    rewrite (fetch_with_source E config s Hsrc) in Hin.
    destruct (fetch_from_targets config s h call Hin) as (c & Hc & Hi & Hd).
    exists hit, s, c. repeat split; auto. now left.
  - rewrite post_calls_app, (fetch_no_post _ Hfetch) in Hin. cbn [app] in Hin.
    destruct (result (fetchUpdatedRows E config) h) as [[|row rows]|e].
    + subst tail. destruct Hin.
    + destruct (lowered_coid (toLowerCase E) s) as [lowered|e] eqn:Hl.
      * destruct Hshape as (logs & -> & Hlogs).
        rewrite post_calls_app, (transform_no_post _ (log_is_transform _ Hlogs)),
          app_nil_r in Hin.
        destruct (processAndIndexData_run E (row :: rows) (field_name s) (field_type s)
                    (category s) ("tenant_" ++ lowered)%string
                    (h ++ events (fetchUpdatedRows E config) h)) as (_ & _ & Hp & _).
        apply (in_map fst) in Hin. rewrite Hp in Hin.
        destruct (documents_for _ _ _); [destruct Hin|].
        destruct Hin as [<-|[]].
        destruct (lowered_coid_ok _ _ _ Hl) as (c & Hc & ->).
        exists hit, s, c. repeat split; auto. now left.
      * now rewrite (transform_no_post _ (log_is_transform _ Hshape)) in Hin.
    + now rewrite (transform_no_post _ (log_is_transform _ Hshape)) in Hin.
Qed.

Lemma process_configs_targets hits : forall h,
  targets_among E hits
    (events (process_configs E
               (map (fun hit => {| config_id := hit_id hit; source := hit_source hit |})
                    hits)) h).
Proof.
  induction hits as [|hit hits IH]; intros h; cbn [map process_configs]; run.
  - apply targets_among_nil.
  - apply targets_among_app.
    + eapply targets_among_incl; [|apply process_config_targets].
      intros x [<-|[]]. now left.
    + destruct (result (process_config E _) h); [|apply targets_among_nil].
      eapply targets_among_incl; [|apply IH]. intros x Hx. now right.
Qed.

Lemma process_index_targets indexName h :
  let ev := events (process_index E indexName) h in
  targets_among E (hits_read ev) ev.
Proof.
  cbv zeta.
  destruct (process_index_shape E indexName h) as (logs & -> & Hlogs).
  destruct (fetchIndexDetails_run E indexName h) as (logs' & Hev & Hlogs' & Hr).
  rewrite Hev.
  change (EvSearch indexName (esClient_search E h indexName) :: logs')
    with ([EvSearch indexName (esClient_search E h indexName)] ++ logs').
  apply targets_among_app; [apply targets_among_app|apply targets_among_app].
  - apply targets_among_glue. repeat constructor.
  - now apply targets_among_sink.
  - destruct (esClient_search E h indexName) as [hits|e].
    + rewrite Hr. eapply targets_among_incl; [|apply process_configs_targets].
      intros hit Hhit. rewrite !hits_read_app. apply in_or_app. left.
      apply in_or_app. left. cbn. now rewrite app_nil_r.
    + destruct (result (fetchIndexDetails E indexName) h) as [configs|e'];
        [discriminate Hr|apply targets_among_nil].
  - now apply targets_among_sink.
Qed.

End Targets.

(** X10.  Over a whole cycle every checkpoint write goes to the document
    of a config that the cycle read, by its id, in the index
    "datasource_postgresql_connection_" followed by that config's coid, a
    string, as the engine's [toLowerCase] gives it, and every publish
    request goes to the index "tenant_" followed by the coid, lowered the
    same way, of a config that the cycle read.  The index a config was
    read from plays no part. *)
Theorem writes_go_to_configs_read E h :
  let ev := events (lastModifiedListener E) h in
  targets_among E (hits_read ev) ev.
Proof.
  apply (lastModifiedListener_by_index E (fun ev => targets_among E (hits_read ev) ev)).
  - apply targets_among_nil.
  - intros a b Ha Hb. rewrite hits_read_app. apply targets_among_app.
    + eapply targets_among_incl; [|exact Ha]. intros x Hx. apply in_or_app. now left.
    + eapply targets_among_incl; [|exact Hb]. intros x Hx. apply in_or_app. now right.
  - intros e He. apply targets_among_glue. now constructor.
  - intros indexName h'. apply process_index_targets.
Qed.

(** X11.  When the catalog holds no index whose name starts with
    "datasource_postgresql_connection_", the cycle says so in the log and
    makes no other call. *)
Theorem no_connection_no_call E h found :
  esClient_cat_indices E (h ++ [EvLog "Fetching indices with prefix..."]) = Ok found ->
  filter (fun i => startsWith (index i) connections_prefix) found = [] ->
  events (lastModifiedListener E) h
  = [EvLog "Fetching indices with prefix...";
     EvCatIndices (Ok found);
     EvLog "No indices found with the specified prefix."].
Proof.
  intros Hcat Hnone.
  pose proof (lastModifiedListener_run E h) as Hrun. cbv zeta in Hrun.
  rewrite Hcat, Hnone in Hrun. exact Hrun.
Qed.

Lemma no_connection_no_call_witness :
  esClient_cat_indices env_no_connection [EvLog "Fetching indices with prefix..."]
  = Ok [ {| index := "tenant_acme" |}; {| index := "logs-2024" |} ]
  /\ events (lastModifiedListener env_no_connection) []
     = [EvLog "Fetching indices with prefix...";
        EvCatIndices (Ok [ {| index := "tenant_acme" |}; {| index := "logs-2024" |} ]);
        EvLog "No indices found with the specified prefix."].
Proof.
  split; [reflexivity|].
  apply (no_connection_no_call env_no_connection []
           [ {| index := "tenant_acme" |}; {| index := "logs-2024" |} ]); reflexivity.
Defined.

(** ** Batches *)

Lemma Ok_inj {A} (a b : A) : Ok a = Ok b -> a = b.
Proof. congruence. Qed.

(** X12.  When every row of a non-empty batch is dropped by the
    transformation, nothing is sent to the sink, and the checkpoint has
    advanced to the change time of the last row all the same: dropping is
    a matter of the transformation, not of the fetch, and the dropped
    rows are not fetched again. *)
Theorem dropped_batch_still_advances E config s h rows :
  source config = Some s ->
  result (fetchUpdatedRows E config) h = Ok rows -> rows <> [] ->
  result (process_rows E (field_type s) (category s) rows [])
         (h ++ events (fetchUpdatedRows E config) h) = Ok [] ->
  post_calls (events (process_config E config) h) = []
  /\ exists c front lastRow w,
       coid s = JStr c
       /\ rows = front ++ [lastRow]
       /\ update_calls (events (process_config E config) h)
          = [((connections_prefix ++ toLowerCase E c)%string,
              config_id config, toISOString (change_time lastRow), Ok w)].
Proof.
  intros Hs Hr Hne Hdocs.
  destruct (fetch_returned_rows E config h rows Hr Hne)
    as (s' & c & n & front & lastRow & w & before & Hs' & Hcoid & Hrows & Hev
        & Hbefore & _ & _).
  replace s' with s in * by congruence. clear Hs'.
  destruct (process_config_after_rows E config h rows Hr Hne)
    as (s2 & c2 & logs & Hs2 & Hcoid2 & Htail & Hlogs).
  replace s2 with s in * by congruence. replace c2 with c in * by congruence.
  pose proof (fetch_events_only E config s Hs h) as Hfetch.
  destruct (processAndIndexData_run E rows (field_name s) (field_type s)
              (category s) ("tenant_" ++ toLowerCase E c)%string
              (h ++ events (fetchUpdatedRows E config) h)) as (_ & Hd & Hp & Hsink).
  rewrite Htail, !post_calls_app, !update_calls_app.
  rewrite (fetch_no_post _ Hfetch), (sink_no_update _ Hsink),
    (sink_no_update _ (log_is_sink _ Hlogs)),
    (transform_no_post _ (log_is_transform _ Hlogs)), !app_nil_r. cbn [app].
  split.
  - rewrite Hdocs in Hd. apply Ok_inj in Hd. rewrite <- Hd in Hp.
    destruct (post_calls _); [reflexivity|discriminate Hp].
  - exists c, front, lastRow, w. split; [exact Hcoid|]. split; [exact Hrows|].
    rewrite Hev, update_calls_app, Hbefore. reflexivity.
Qed.

Lemma dropped_batch_still_advances_witness :
  result (fetchUpdatedRows env_all_dropped acme_config) [] = Ok [row_binary; row_delete]
  /\ post_calls (events (process_config env_all_dropped acme_config) []) = []
  /\ exists c front lastRow w,
       coid acme = JStr c
       /\ [row_binary; row_delete] = front ++ [lastRow]
       /\ update_calls (events (process_config env_all_dropped acme_config) [])
          = [((connections_prefix ++ toLowerCase env_all_dropped c)%string,
              "cfg-1"%string, toISOString (change_time lastRow), Ok w)].
Proof.
  split; [reflexivity|].
  apply (dropped_batch_still_advances env_all_dropped acme_config acme []
           [row_binary; row_delete]).
  - reflexivity.
  - reflexivity.
  - discriminate.
  - reflexivity.
Defined.

(** X13.  Every document sent to the sink has a truthy content (never
    an empty or absent one), a null image, the category of the call, and
    the default title and description that end with its id; and it is
    sent to the index of the call. *)
Theorem published_documents_are_filled
    E rows fieldName fieldType category indexName h target documents r d :
  In (target, documents, r)
     (post_calls (events (processAndIndexData E rows fieldName fieldType
                            category indexName) h)) ->
  In d documents ->
  target = indexName
  /\ truthy (doc_content d) = true
  /\ doc_image d = JNull
  /\ doc_category d = category
  /\ doc_title d = ("Default Title for Row " ++ doc_id d)%string
  /\ doc_description d = ("Default Description for Row " ++ doc_id d)%string.
Proof.
  intros Hpost Hd.
  destruct (processAndIndexData_run E rows fieldName fieldType category indexName h)
    as (_ & _ & Hposts & _).
  apply (in_map fst) in Hpost. rewrite Hposts in Hpost. cbn [fst] in Hpost.
  destruct (documents_for category rows _) as [|d0 documents0] eqn:Hdocs;
    [destruct Hpost|].
  destruct Hpost as [Heq|[]]. injection Heq as <- <-.
  rewrite <- Hdocs in Hd.
  apply documents_for_In in Hd as (row & content & _ & _ & Ht & ->).
  repeat split. exact Ht.
Qed.

Lemma published_documents_are_filled_witness :
  "tenant_acme"%string = "tenant_acme"%string
  /\ truthy (doc_content (document_of row_insert (JStr "first") "news")) = true
  /\ doc_image (document_of row_insert (JStr "first") "news") = JNull
  /\ doc_category (document_of row_insert (JStr "first") "news") = "news"%string
  /\ doc_title (document_of row_insert (JStr "first") "news")
     = ("Default Title for Row " ++ "7")%string
  /\ doc_description (document_of row_insert (JStr "first") "news")
     = ("Default Description for Row " ++ "7")%string.
Proof.
  apply (published_documents_are_filled env_dropped_row [row_insert; row_delete]
           "body" "text" "news" "tenant_acme" []
           "tenant_acme" [document_of row_insert (JStr "first") "news"] (Ok tt)).
  - left. reflexivity.
  - left. reflexivity.
Defined.

Lemma documents_for_length category rows : forall outcomes,
  (List.length (documents_for category rows outcomes) <= List.length rows)%nat.
Proof.
  induction rows as [|row rows IH]; intros [|outcome outcomes]; cbn; try lia.
  rewrite length_app. specialize (IH outcomes).
  destruct outcome as [content|e]; cbn; [destruct (truthy content); cbn|]; lia.
Qed.

Lemma documents_for_all_kept category rows : forall outcomes,
  List.length outcomes = List.length rows ->
  forallb kept outcomes = true ->
  map doc_id (documents_for category rows outcomes)
  = map (fun row => Number_toString (row_id row)) rows.
Proof.
  induction rows as [|row rows IH]; intros [|outcome outcomes];
    cbn [List.length forallb documents_for map];
    try reflexivity; try discriminate.
  intros Hlen Hkept. apply andb_prop in Hkept as (Hk & Hkept).
  destruct outcome as [content|e]; cbn in Hk; [|discriminate Hk].
  cbn [kept_document]. rewrite Hk. cbn [app map]. f_equal.
  apply IH; [lia|exact Hkept].
Qed.

(** X14.  A batch holds at most one document per row.  When the content
    processor gave a truthy content for every row, it holds exactly one
    document per row, in the order of the rows. *)
Theorem one_document_per_row E rows fieldType category h :
  exists documents,
    result (process_rows E fieldType category rows []) h = Ok documents
    /\ (List.length documents <= List.length rows)%nat
    /\ (forallb kept
          (map snd (process_calls (events (process_rows E fieldType category rows []) h)))
        = true ->
        map doc_id documents = map (fun row => Number_toString (row_id row)) rows).
Proof.
  destruct (process_rows_run E fieldType category rows [] h) as (Hr & Hc & _).
  cbn [app] in Hr. eexists. split; [exact Hr|]. split.
  - apply documents_for_length.
  - apply documents_for_all_kept.
    rewrite length_map, <- (length_map fst), Hc. apply length_map.
Qed.

Lemma one_document_per_row_witness :
  exists documents,
    result (process_rows env_two_rows "text" "news" [row_insert; row_update] []) []
    = Ok documents
    /\ (List.length documents <= 2)%nat
    /\ map doc_id documents = ["7"%string; "8"%string].
Proof.
  destruct (one_document_per_row env_two_rows [row_insert; row_update] "text" "news" [])
    as (documents & Hr & Hlen & Hall).
  exists documents. split; [exact Hr|]. split; [exact Hlen|].
  apply Hall. reflexivity.
Defined.

(** ** The fetch and the publish *)

(** X17.  The fetch calls the change-log source and the metadata store
    only: it never calls the content processor or the sink, and never
    searches.  The transformation and the publish call the content
    processor and the sink only: they never touch the metadata store or
    the change-log source. *)
Theorem fetch_and_publish_are_separate E :
  (forall config h,
     let ev := events (fetchUpdatedRows E config) h in
     process_calls ev = [] /\ post_calls ev = [] /\ search_calls ev = [])
  /\ (forall rows fieldName fieldType category indexName h,
        let ev := events (processAndIndexData E rows fieldName fieldType
                            category indexName) h in
        update_calls ev = [] /\ search_calls ev = []
        /\ connect_calls ev = [] /\ query_calls ev = []).
Proof.
  split.
  - intros config h ev. pose proof (fetch_events_only_any E config h) as Hfetch.
    subst ev. repeat split.
    + now apply fetch_no_process.
    + now apply fetch_no_post.
    + now apply fetch_no_search.
  - intros rows fieldName fieldType category indexName h ev.
    destruct (processAndIndexData_run E rows fieldName fieldType category indexName h)
      as (_ & _ & _ & Hsink).
    subst ev. repeat split.
    + now apply sink_no_update.
    + now apply sink_no_search.
    + now apply sink_no_connect.
    + now apply sink_no_query.
Qed.
